(** * Restaurant simulation (src/restaurant.ts): model and properties

    The classes [DiningTime], [Table], [Party], [Restaurant] and [Person]
    are mutable objects that point at each other: a [Person] holds the
    [Table] it sits at, a [Table] holds an array of [Person]s, a [Party]
    holds an array of [Person]s.  The model therefore keeps an object store:
    persons, tables and arrays live at references, and a method is a
    function from store to completion and store.

    Numbers ([number] in the source) are modelled as integers [Z]: times,
    capacities and identifiers are taken exactly, the rounding of IEEE
    doubles is outside the model.  Array lengths are naturals.  The order
    of whole numbers is the order of the doubles that hold them; their sum
    is the sum of doubles as long as the terms and the sum lie between
    -2^53 and 2^53 ([safeInteger]), and the statements that depend on a
    sum carry these bounds.

    [DiningTime.interpolate] and the [Person] constructor draw from the
    [Randomizer], which is imported from another module; a person's
    [actualDiningTime] is fixed at construction and is a field here. *)

From Stdlib Require String PrimFloat.
From Stdlib Require Import ZArith List Lia Bool Arith.
Import ListNotations.
Open Scope Z_scope.

(** ** References and the object store *)

Definition PersonRef := nat.
Definition TableRef := nat.
Definition ArrayRef := nat.

(** Pointwise update of a store. *)
Definition upd {V : Type} (f : nat -> V) (k : nat) (v : V) : nat -> V :=
  fun x => if Nat.eqb x k then v else f x.

(** class DiningTime *)
Record DiningTime := mkDiningTime {
  lowerBound : Z;
  upperBound : Z
}.

(** class Person; [sitting_at_table] is [Table | undefined]. *)
Record Person := mkPerson {
  person_id : Z;
  name : String.string;
  age : Z;
  diningTime : DiningTime;
  actualDiningTime : Z;
  sitting_at_table : option TableRef
}.

(** class Table; [patrons] is a reference to a [Person[]]: the constructor
    stores the array it is given, [emptyTable] rebinds the field to a new
    array. *)
Record Table := mkTable {
  table_id : Z;
  capacity : Z;
  patrons : ArrayRef
}.

(** class Party; [members] is the array given to the constructor. *)
Record Party := mkParty {
  members : ArrayRef
}.

Arguments mkTable table_id%_Z capacity%_Z patrons%_nat.
Arguments mkParty members%_nat.

(** The store, together with the fields of the [Restaurant] object
    ([tables], [waitingQueue], [currentTime]).  [nextArray] is the
    allocation pointer for array literals. *)
Record World := mkWorld {
  personStore : PersonRef -> Person;
  tableStore : TableRef -> Table;
  arrayStore : ArrayRef -> list PersonRef;
  nextArray : ArrayRef;
  tables : list TableRef;
  waitingQueue : list Party;
  currentTime : Z
}.

Definition set_personStore (f : PersonRef -> Person) (w : World) : World :=
  mkWorld f (tableStore w) (arrayStore w) (nextArray w)
          (tables w) (waitingQueue w) (currentTime w).

Definition set_tableStore (f : TableRef -> Table) (w : World) : World :=
  mkWorld (personStore w) f (arrayStore w) (nextArray w)
          (tables w) (waitingQueue w) (currentTime w).

Definition set_arrayStore (f : ArrayRef -> list PersonRef) (w : World) : World :=
  mkWorld (personStore w) (tableStore w) f (nextArray w)
          (tables w) (waitingQueue w) (currentTime w).

Definition set_nextArray (n : ArrayRef) (w : World) : World :=
  mkWorld (personStore w) (tableStore w) (arrayStore w) n
          (tables w) (waitingQueue w) (currentTime w).

Definition set_tables (l : list TableRef) (w : World) : World :=
  mkWorld (personStore w) (tableStore w) (arrayStore w) (nextArray w)
          l (waitingQueue w) (currentTime w).

Definition set_waitingQueue (q : list Party) (w : World) : World :=
  mkWorld (personStore w) (tableStore w) (arrayStore w) (nextArray w)
          (tables w) q (currentTime w).

Definition set_currentTime (t : Z) (w : World) : World :=
  mkWorld (personStore w) (tableStore w) (arrayStore w) (nextArray w)
          (tables w) (waitingQueue w) t.

(** ** Completions: a method returns or throws *)

(** The two [Error]s of the source, thrown by [Person.sitDown]:
    "<name> is already sitting!" and "Table <id> is full!". *)
Inductive Error :=
| AlreadySitting (person : PersonRef)
| TableIsFull (table : TableRef).

Inductive Completion (A : Type) :=
| Normal (a : A)
| Throw (e : Error).
Arguments Normal {A} a.
Arguments Throw {A} e.

Definition M (A : Type) : Type := World -> Completion A * World.

Definition ret {A} (a : A) : M A := fun w => (Normal a, w).

Definition throw {A} (e : Error) : M A := fun w => (Throw e, w).

Definition bind {A B} (c : M A) (k : A -> M B) : M B :=
  fun w =>
    match c w with
    | (Normal a, w1) => k a w1
    | (Throw e, w1) => (Throw e, w1)
    end.

Definition gets {A} (f : World -> A) : M A := fun w => (Normal (f w), w).

Definition modify (f : World -> World) : M unit := fun w => (Normal tt, f w).

Notation "x <- c ;; k" := (bind c (fun x => k))
  (at level 61, c at next level, right associativity).
Notation "c ;; k" := (bind c (fun _ => k))
  (at level 61, right associativity).

(** [for (const x of l) body(x)] and [l.forEach(body)], for an array the
    body does not change. *)
Fixpoint forOf {A} (body : A -> M unit) (l : list A) : M unit :=
  match l with
  | [] => ret tt
  | x :: l' => body x ;; forOf body l'
  end.

(** An array literal [[]]: a new array, at a new reference. *)
Definition newArray : M ArrayRef :=
  fun w =>
    let a := nextArray w in
    (Normal a, set_nextArray (S a) (set_arrayStore (upd (arrayStore w) a []) w)).

(** ** class DiningTime *)

Definition new_DiningTime (lowerBound upperBound : Z) : Completion DiningTime :=
  Normal (mkDiningTime lowerBound upperBound).

(** ** class Table *)

(** The constructor; [patrons] defaults to a new empty array. *)
Definition new_Table (id capacity : Z) (patrons : option ArrayRef) : M Table :=
  match patrons with
  | Some a => ret (mkTable id capacity a)
  | None => a <- newArray ;; ret (mkTable id capacity a)
  end.

Definition getPatrons (table : TableRef) (w : World) : list PersonRef :=
  arrayStore w (patrons (tableStore w table)).

Definition getCapacity (table : TableRef) (w : World) : Z :=
  capacity (tableStore w table).

Definition addPatron (this : TableRef) (person : PersonRef) : M bool :=
  fun w =>
    let a := patrons (tableStore w this) in
    if Z.of_nat (length (arrayStore w a)) <? capacity (tableStore w this)
    then (Normal true,
          set_arrayStore (upd (arrayStore w) a (arrayStore w a ++ [person])) w)
    else (Normal false, w).

(** ** class Person *)

Definition set_sitting (this : PersonRef) (v : option TableRef) (w : World) : World :=
  let p := personStore w this in
  set_personStore
    (upd (personStore w) this
         (mkPerson (person_id p) (name p) (age p) (diningTime p)
                   (actualDiningTime p) v)) w.

Definition option_eqb (a : option TableRef) (b : TableRef) : bool :=
  match a with
  | Some x => Nat.eqb x b
  | None => false
  end.

Definition sitDown (this : PersonRef) (table : TableRef) : M unit :=
  at_table <- gets (fun w => sitting_at_table (personStore w this)) ;;
  match at_table with
  | Some _ => throw (AlreadySitting this)
  | None =>
      was_seated <- addPatron table this ;;
      if negb was_seated then throw (TableIsFull table)
      else modify (set_sitting this (Some table))
  end.

Definition leaveTable (this : PersonRef) (table : TableRef) : M unit :=
  fun w =>
    if option_eqb (sitting_at_table (personStore w this)) table
    then (Normal tt, set_sitting this None w)
    else (* they weren't at that table *) (Normal tt, w).

(** Table.emptyTable *)
Definition set_patrons (this : TableRef) (a : ArrayRef) (w : World) : World :=
  let t := tableStore w this in
  set_tableStore (upd (tableStore w) this (mkTable (table_id t) (capacity t) a)) w.

Definition emptyTable (this : TableRef) : M unit :=
  ps <- gets (getPatrons this) ;;
  forOf (fun patron => leaveTable patron this) ps ;;
  a <- newArray ;;
  modify (set_patrons this a).

(** ** class Party *)

Definition new_Party (members : ArrayRef) : Completion Party :=
  Normal (mkParty members).

Definition getMembers (party : Party) (w : World) : list PersonRef :=
  arrayStore w (members party).

Definition getSize (party : Party) (w : World) : Z :=
  Z.of_nat (length (arrayStore w (members party))).

(** ** class Restaurant *)

Definition new_Restaurant (tables : list TableRef) : M unit :=
  modify (fun w => set_currentTime 0 (set_waitingQueue [] (set_tables tables w))).

Definition addToWaitingQueue (party : Party) : M unit :=
  modify (fun w => set_waitingQueue (waitingQueue w ++ [party]) w).

(** The predicate given to [find]. *)
Definition available (partySize : Z) (w : World) (table : TableRef) : bool :=
  (length (getPatrons table w) =? 0)%nat && (partySize <=? getCapacity table w).

Definition findAvailableTable (partySize : Z) (w : World) : option TableRef :=
  find (available partySize w) (tables w).

(** The loop of [seatParty] pushes only onto the array of the table found,
    which is empty; were it the party's own array the party would have no
    member and the loop no iteration.  So the loop runs over the members
    read at its start. *)
Definition seatParty (party : Party) : M bool :=
  size <- gets (getSize party) ;;
  table <- gets (findAvailableTable size) ;;
  match table with
  | None => ret false
  | Some table =>
      ms <- gets (getMembers party) ;;
      forOf (fun person => sitDown person table) ms ;;
      ret true
  end.

(** [Math.max(x, ...xs)] *)
Definition Math_max (x : Z) (xs : list Z) : Z := fold_left Z.max xs x.

(** simulateStep, first statement: [this.currentTime += timeStep]. *)
Definition advanceClock (timeStep : Z) : M unit :=
  modify (fun w => set_currentTime (currentTime w + timeStep) w).

(** simulateStep, body of the loop over the tables. *)
Definition checkTable (table : TableRef) : M unit :=
  ps <- gets (getPatrons table) ;;
  match ps with
  | [] => ret tt
  | p :: rest =>
      adt <- gets (fun w => fun q => actualDiningTime (personStore w q)) ;;
      let maxDiningTime := Math_max (adt p) (map adt rest) in
      now <- gets currentTime ;;
      if maxDiningTime <=? now then emptyTable table else ret tt
  end.

(** simulateStep, the loop over the tables: [for (const table of
    this.tables)]. *)
Definition evictDuePatrons : M unit :=
  ts <- gets tables ;;
  forOf checkTable ts.

(** simulateStep, the [while] loop over the waiting queue.  Each iteration
    that does not leave the loop shifts the queue, and nothing else changes
    it, so the loop is written by recursion on the queue read at its
    start; [seatWaiting_queue] below shows that this list is the queue of
    the store at every iteration. *)
Fixpoint seatWaiting (queue : list Party) : M unit :=
  match queue with
  | [] => ret tt
  | nextParty :: rest =>
      size <- gets (getSize nextParty) ;;
      table <- gets (findAvailableTable size) ;;
      match table with
      | Some _ =>
          modify (set_waitingQueue rest) ;;
          seatParty nextParty ;;
          seatWaiting rest
      | None => ret tt
      end
  end.

(** simulateStep, the loop over the waiting queue, started on the queue of
    the store. *)
Definition admitWaitingParties : M unit :=
  q <- gets waitingQueue ;;
  seatWaiting q.

(** [simulateStep]: the clock, then the tables, then the queue. *)
Definition simulateStep (timeStep : Z) : M unit :=
  advanceClock timeStep ;;
  evictDuePatrons ;;
  admitWaitingParties.

(** [runSimulation]: the loop may not end, so the model counts the steps it
    is allowed; [None] means that [fuel] steps were not enough. *)
Fixpoint runSimulation (fuel : nat) (duration timeStep : Z) (w : World)
  : option (Completion unit * World) :=
  if currentTime w <? duration then
    match fuel with
    | O => None
    | S fuel' =>
        match simulateStep timeStep w with
        | (Normal _, w1) => runSimulation fuel' duration timeStep w1
        | (Throw e, w1) => Some (Throw e, w1)
        end
    end
  else Some (Normal tt, w).

Definition getOccupiedTableCount (w : World) : nat :=
  length (filter (fun table => (0 <? length (getPatrons table w))%nat) (tables w)).

Definition getTotalSeatedPatrons (w : World) : nat :=
  fold_left (fun sum table => (sum + length (getPatrons table w))%nat) (tables w) 0%nat.

Definition getWaitingPatronCount (w : World) : Z :=
  fold_left (fun sum party => sum + getSize party w) (waitingQueue w) 0.

(** ** function main *)

(** One iteration of the loop of [main], without its [console.log].  The
    party generator is imported from another module: the party it returns
    at this iteration, or nothing, is the argument [newParty].  The two
    counters are [partyCount] and [totalPatronsServed]. *)
Definition main_iteration (newParty : option Party) (timeStep : Z)
    (partyCount totalPatronsServed : nat) : M (nat * nat) :=
  partyCount <-
    match newParty with
    | Some party => addToWaitingQueue party ;; ret (S partyCount)
    | None => ret partyCount
    end ;;
  seatedBefore <- gets getTotalSeatedPatrons ;;
  simulateStep timeStep ;;
  seatedAfter <- gets getTotalSeatedPatrons ;;
  ret (partyCount,
       if (seatedAfter <? seatedBefore)%nat
       then (totalPatronsServed + (seatedBefore - seatedAfter))%nat
       else totalPatronsServed).

(** * Predicates of the properties *)

(** The world after [patrons.forEach(patron => patron.leaveTable(table))]. *)
Fixpoint leaveAll (ps : list PersonRef) (table : TableRef) (w : World) : World :=
  match ps with
  | [] => w
  | p :: ps' => leaveAll ps' table (snd (leaveTable p table w))
  end.

(** [p.sitting_at_table === t] exactly when [t.getPatrons()] lists [p], for
    every person and every table of the restaurant. *)
Definition consistent (w : World) : Prop :=
  forall p t, In t (tables w) ->
    (sitting_at_table (personStore w p) = Some t <-> In p (getPatrons t w)).

(** Every table of the restaurant has a [patrons] array of its own: no two
    tables were constructed on one array.  (The first part says of the
    model's store that these arrays have been allocated.) *)
Definition ownArrays (w : World) : Prop :=
  (forall t, In t (tables w) -> (patrons (tableStore w t) < nextArray w)%nat) /\
  (forall t1 t2, In t1 (tables w) -> In t2 (tables w) ->
     patrons (tableStore w t1) = patrons (tableStore w t2) -> t1 = t2).

(** The occupants of every table of the restaurant fit its capacity. *)
Definition withinCapacity (w : World) : Prop :=
  forall t, In t (tables w) ->
    Z.of_nat (length (getPatrons t w)) <= getCapacity t w.

(** What [sitDown] and [emptyTable] keep, for the seating relation. *)
Definition seatingOK (tbls : list TableRef) (w : World) : Prop :=
  tables w = tbls /\ consistent w /\ ownArrays w.

(** [sitDown] and [emptyTable] keep every table within its capacity. *)
Definition capacityOK (tbls : list TableRef) (w : World) : Prop :=
  tables w = tbls /\ withinCapacity w /\ ownArrays w.

(** For the eviction phase started in [w0] and a table [t]: the occupants
    of [t] that sit at it. *)
Definition seatedAt (w0 : World) (t : TableRef) (q : PersonRef) : Prop :=
  In q (getPatrons t w0) /\ sitting_at_table (personStore w0 q) = Some t.

(** Nothing has happened to the table yet. *)
Definition untouched (w0 : World) (t : TableRef) (w : World) : Prop :=
  (patrons (tableStore w t) < nextArray w)%nat /\
  getPatrons t w = getPatrons t w0 /\
  (forall q, seatedAt w0 t q -> sitting_at_table (personStore w q) = Some t) /\
  currentTime w = currentTime w0 /\
  (forall q, actualDiningTime (personStore w q)
             = actualDiningTime (personStore w0 q)).

(** The table has been emptied. *)
Definition emptied (w0 : World) (t : TableRef) (w : World) : Prop :=
  (patrons (tableStore w t) < nextArray w)%nat /\
  getPatrons t w = [] /\
  (forall q, seatedAt w0 t q -> sitting_at_table (personStore w q) = None).

(** The admission phase as the specification words it: the party at the
    head of the queue is taken out and seated as long as a table is
    available for it, and the phase stops at the first head party for which
    none is.  [fifoAdmission w seated r]: from [w] the phase takes the
    parties [seated] out of the queue, in this order, and completes as
    [r]. *)
Inductive fifoAdmission : World -> list Party -> Completion unit * World -> Prop :=
| fifo_nobody w :
    waitingQueue w = [] ->
    fifoAdmission w [] (Normal tt, w)
| fifo_blocked w head rest :
    waitingQueue w = head :: rest ->
    findAvailableTable (getSize head w) w = None ->
    fifoAdmission w [] (Normal tt, w)
| fifo_seated w head rest t b w1 seated r :
    waitingQueue w = head :: rest ->
    findAvailableTable (getSize head w) w = Some t ->
    seatParty head (set_waitingQueue rest w) = (Normal b, w1) ->
    fifoAdmission w1 seated r ->
    fifoAdmission w (head :: seated) r
| fifo_thrown w head rest t e w1 :
    waitingQueue w = head :: rest ->
    findAvailableTable (getSize head w) w = Some t ->
    seatParty head (set_waitingQueue rest w) = (Throw e, w1) ->
    fifoAdmission w [head] (Throw e, w1).

(** The head of the queue, if any, finds no table. *)
Definition headBlocked (w : World) : Prop :=
  match waitingQueue w with
  | [] => True
  | head :: _ => findAvailableTable (getSize head w) w = None
  end.

(** What no method assigns: the identifier and capacity of a table, and of
    a person everything but the table they sit at. *)
Definition sameTable (a b : Table) : Prop :=
  table_id a = table_id b /\ capacity a = capacity b.

Definition samePerson (a b : Person) : Prop :=
  person_id a = person_id b /\ name a = name b /\ age a = age b /\
  diningTime a = diningTime b /\ actualDiningTime a = actualDiningTime b.

Definition sameIdentities (w0 w : World) : Prop :=
  tables w = tables w0 /\
  (forall t, sameTable (tableStore w t) (tableStore w0 t)) /\
  (forall q, samePerson (personStore w q) (personStore w0 q)).


(** Everybody who waits, party after party. *)
Definition waitingPatrons (w : World) : list PersonRef :=
  concat (map (fun party => getMembers party w) (waitingQueue w)).

(** A queue that can be seated without an error: nobody waits twice (in one
    party or in two), nobody who waits is seated, and the member array of a
    waiting party is no table's array.  (The bound by [nextArray] says of
    the model's store that the member arrays have been allocated.) *)
Definition queueOK (w : World) : Prop :=
  (forall party, In party (waitingQueue w) ->
     (members party < nextArray w)%nat /\
     forall t, In t (tables w) -> patrons (tableStore w t) <> members party) /\
  NoDup (waitingPatrons w) /\
  (forall p, In p (waitingPatrons w) ->
     sitting_at_table (personStore w p) = None).

(** The driver's [tables.reduce((sum, t) => sum + t.getCapacity(), 0)]. *)
Definition totalCapacity (w : World) : Z :=
  fold_left (fun sum t => sum + getCapacity t w) (tables w) 0.

(** The whole numbers that a double holds exactly and on which the sum of
    doubles is the sum of integers, provided the sum is one of them
    again: beyond 2^53 a double sum is rounded (2^53 + 1 is 2^53). *)
Definition safeInteger (z : Z) : Prop := - 2 ^ 53 <= z <= 2 ^ 53.





(** ** Concrete restaurants *)

Definition noDiningTime : DiningTime := mkDiningTime 0 0.

Definition nobody : Person := mkPerson 0 String.EmptyString 0 noDiningTime 0 None.

Definition noTable : Table := mkTable 0 0 0.

(** A store given by the lists of its objects: the object at reference [r]
    is the [r]-th of its list. *)
Definition storeOf (ps : list Person) (ts : list Table)
    (arrs : list (list PersonRef)) (tbls : list TableRef)
    (queue : list Party) (now : Z) : World :=
  mkWorld (fun r => nth r ps nobody) (fun r => nth r ts noTable)
          (fun r => nth r arrs []) (length arrs) tbls queue now.

Definition guest (id : Z) (dining : Z) (at_table : option TableRef) : Person :=
  mkPerson id String.EmptyString 30 (mkDiningTime 30 90) dining at_table.

(** [new Restaurant([new Table(1, 2), new Table(2, 4)])], nobody inside. *)
Definition emptyRestaurant : World :=
  storeOf [] [mkTable 1 2 0; mkTable 2 4 1] [[]; []] [0; 1]%nat [] 0.

(** Two tables constructed on one array, [a = []; new Table(1, 1, a);
    new Table(2, 4, a)], and a party of three in the queue. *)
Definition sharedArray : World :=
  storeOf [guest 1 30 None; guest 2 40 None; guest 3 50 None]
          [mkTable 1 1 0; mkTable 2 4 0]
          [[]; [0; 1; 2]%nat]
          [0; 1]%nat [mkParty 1] 0.

(** A table of two occupied by guests who dine 30 and 50, a free table of
    four. *)
Definition twoDiners (now : Z) : World :=
  storeOf [guest 1 30 (Some 0%nat); guest 2 50 (Some 0%nat)]
          [mkTable 1 2 0; mkTable 2 4 1]
          [[0; 1]%nat; []]
          [0; 1]%nat [] now.

(** A free table of two, a table of four taken until 1000, and the queue
    [A (four people); B (two people)]. *)
Definition blockedQueue : World :=
  storeOf [guest 1 60 None; guest 2 60 None; guest 3 60 None; guest 4 60 None;
           guest 5 60 None; guest 6 60 None; guest 7 1000 (Some 1%nat)]
          [mkTable 1 2 0; mkTable 2 4 1]
          [[]; [6]%nat; [0; 1; 2; 3]%nat; [4; 5]%nat]
          [0; 1]%nat [mkParty 2; mkParty 3] 0.

(** A new restaurant with a table of two and a table of four, and a party
    of two waiting. *)
Definition openingNight : World :=
  storeOf [guest 1 30 None; guest 2 50 None]
          [mkTable 1 2 0; mkTable 2 4 1]
          [[]; []; [0; 1]%nat]
          [0; 1]%nat [mkParty 2] 0.

(** [new Restaurant([new Table(1, -1)])]: the constructor takes any
    capacity. *)
Definition negativeCapacity : World :=
  storeOf [] [mkTable 1 (-1) 0] [[]] [0%nat] [] 0.

(** One guest listed twice in the party at the head of the queue,
    [new Party([p, p])], and a free table of two. *)
Definition twiceInParty : World :=
  storeOf [guest 1 30 None] [mkTable 1 2 0] [[]; [0; 0]%nat]
          [0%nat] [mkParty 1] 0.

(** The only table, of two, taken by guests who dine 30 and 50, and a
    party of two waiting, at time 40. *)
Definition fullHouse : World :=
  storeOf [guest 1 30 (Some 0%nat); guest 2 50 (Some 0%nat);
           guest 3 60 None; guest 4 60 None]
          [mkTable 1 2 0]
          [[0; 1]%nat; [2; 3]%nat]
          [0%nat] [mkParty 1] 40.

(** A free table of two and [new Party([])] waiting. *)
Definition emptyPartyWaiting : World :=
  storeOf [] [mkTable 1 2 0] [[]; []] [0%nat] [mkParty 1] 0.



(** * Properties *)

Lemma upd_same {V : Type} (f : nat -> V) k v : upd f k v k = v.
Proof. unfold upd. now rewrite Nat.eqb_refl. Qed.

Lemma upd_other {V : Type} (f : nat -> V) k v x : x <> k -> upd f k v x = f x.
Proof.
  intros H. unfold upd. destruct (Nat.eqb_spec x k); [contradiction | reflexivity].
Qed.

(** ** What each method does to the store *)

Lemma sitDown_eq this table w :
  sitDown this table w =
  match sitting_at_table (personStore w this) with
  | Some _ => (Throw (AlreadySitting this), w)
  | None =>
      if Z.of_nat (length (getPatrons table w)) <? getCapacity table w
      then (Normal tt,
            set_sitting this (Some table)
              (set_arrayStore
                 (upd (arrayStore w) (patrons (tableStore w table))
                      (getPatrons table w ++ [this])) w))
      else (Throw (TableIsFull table), w)
  end.
Proof.
  unfold sitDown, bind, gets, addPatron, getPatrons, getCapacity, throw, modify.
  destruct (sitting_at_table (personStore w this)); [reflexivity|].
  destruct (_ <? _); reflexivity.
Qed.

Lemma forOf_leaveTable ps table w :
  forOf (fun patron => leaveTable patron table) ps w = (Normal tt, leaveAll ps table w).
Proof.
  revert w. induction ps as [|p ps IH]; intros w; simpl; [reflexivity|].
  unfold bind. unfold leaveTable at 1 3.
  destruct (option_eqb _ _); simpl; apply IH.
Qed.

Lemma emptyTable_eq this w :
  emptyTable this w =
  (Normal tt,
   let w1 := leaveAll (getPatrons this w) this w in
   set_patrons this (nextArray w1)
     (set_nextArray (S (nextArray w1))
        (set_arrayStore (upd (arrayStore w1) (nextArray w1) []) w1))).
Proof.
  unfold emptyTable, bind, gets. rewrite forOf_leaveTable. reflexivity.
Qed.

Lemma option_eqb_true a b : option_eqb a b = true <-> a = Some b.
Proof.
  destruct a as [x|]; simpl.
  - rewrite Nat.eqb_eq. split; congruence.
  - split; discriminate.
Qed.

Lemma option_eqb_false a b : option_eqb a b = false <-> a <> Some b.
Proof.
  rewrite <- option_eqb_true. destruct (option_eqb a b); split; congruence.
Qed.

(** [leaveTable] touches the person store only. *)
Lemma leaveTable_frame p table w :
  let w' := snd (leaveTable p table w) in
  tableStore w' = tableStore w /\ arrayStore w' = arrayStore w /\
  nextArray w' = nextArray w /\ tables w' = tables w /\
  waitingQueue w' = waitingQueue w /\ currentTime w' = currentTime w.
Proof.
  unfold leaveTable. destruct (option_eqb _ _); simpl; repeat split.
Qed.

Lemma leaveAll_frame ps table w :
  let w' := leaveAll ps table w in
  tableStore w' = tableStore w /\ arrayStore w' = arrayStore w /\
  nextArray w' = nextArray w /\ tables w' = tables w /\
  waitingQueue w' = waitingQueue w /\ currentTime w' = currentTime w.
Proof.
  revert w. induction ps as [|p ps IH]; intros w; simpl.
  - repeat split.
  - destruct (IH (snd (leaveTable p table w))) as (A & B & C & D & E & F).
    destruct (leaveTable_frame p table w) as (A' & B' & C' & D' & E' & F').
    simpl in *. repeat split; congruence.
Qed.

Lemma leaveTable_sitting p table w q :
  sitting_at_table (personStore (snd (leaveTable p table w)) q) =
  if Nat.eqb q p && option_eqb (sitting_at_table (personStore w q)) table
  then None else sitting_at_table (personStore w q).
Proof.
  unfold leaveTable.
  destruct (Nat.eqb_spec q p) as [->|N]; simpl.
  - destruct (option_eqb _ _); simpl; [|reflexivity].
    now rewrite upd_same.
  - destruct (option_eqb (sitting_at_table (personStore w p)) table); simpl;
      [|reflexivity].
    now rewrite upd_other.
Qed.

Lemma leaveTable_actualDiningTime p table w q :
  actualDiningTime (personStore (snd (leaveTable p table w)) q) =
  actualDiningTime (personStore w q).
Proof.
  unfold leaveTable. destruct (option_eqb _ _); simpl; [|reflexivity].
  destruct (Nat.eq_dec q p) as [->|N].
  - now rewrite upd_same.
  - now rewrite upd_other.
Qed.

Lemma leaveAll_actualDiningTime ps table w q :
  actualDiningTime (personStore (leaveAll ps table w) q) =
  actualDiningTime (personStore w q).
Proof.
  revert w. induction ps as [|p ps IH]; intros w; simpl; [reflexivity|].
  rewrite IH. apply leaveTable_actualDiningTime.
Qed.

(** After the [forEach] of [emptyTable]: a person at another table (or at
    none) is untouched; a person at [table] is cleared exactly when listed. *)
Lemma leaveAll_other ps table w q :
  sitting_at_table (personStore w q) <> Some table ->
  sitting_at_table (personStore (leaveAll ps table w) q) =
  sitting_at_table (personStore w q).
Proof.
  revert w. induction ps as [|p ps IH]; intros w H; simpl; [reflexivity|].
  assert (E : sitting_at_table (personStore (snd (leaveTable p table w)) q) =
              sitting_at_table (personStore w q)).
  { rewrite leaveTable_sitting. apply option_eqb_false in H. rewrite H.
    now rewrite andb_false_r. }
  rewrite IH; rewrite E; auto.
Qed.

Lemma leaveAll_listed ps table w q :
  In q ps ->
  sitting_at_table (personStore w q) = Some table ->
  sitting_at_table (personStore (leaveAll ps table w) q) = None.
Proof.
  revert w. induction ps as [|p ps IH]; intros w HIn H; simpl; [destruct HIn|].
  destruct (Nat.eq_dec q p) as [->|N].
  - rewrite leaveAll_other; rewrite leaveTable_sitting, Nat.eqb_refl;
      apply option_eqb_true in H; rewrite H; simpl; [reflexivity|discriminate].
  - destruct HIn as [->|HIn]; [contradiction|].
    apply IH; [assumption|].
    rewrite leaveTable_sitting.
    apply Nat.eqb_neq in N. now rewrite N.
Qed.

(** ** Reasoning about sequences of calls *)

Lemma bind_snd {A B} (P : World -> Prop) (c : M A) (k : A -> M B) w :
  P (snd (c w)) ->
  (forall a w1, c w = (Normal a, w1) -> P (snd (k a w1))) ->
  P (snd (bind c k w)).
Proof.
  unfold bind. intros Hc Hk.
  destruct (c w) as [[a|e] w1]; simpl in *; auto.
Qed.

Lemma forOf_snd {A} (P : World -> Prop) (body : A -> M unit) (l : list A) :
  (forall x w, In x l -> P w -> P (snd (body x w))) ->
  forall w, P w -> P (snd (forOf body l w)).
Proof.
  induction l as [|x l IH]; intros Hb w Hw; simpl; [assumption|].
  apply bind_snd.
  - apply Hb; [now left | assumption].
  - intros [] w1 E. apply IH.
    + intros y w2 Hy. apply Hb. now right.
    + change w1 with (snd (Normal tt, w1)). rewrite <- E.
      apply Hb; [now left | assumption].
Qed.

Lemma findAvailableTable_In partySize w table :
  findAvailableTable partySize w = Some table -> In table (tables w).
Proof.
  unfold findAvailableTable. intros H. now apply find_some in H.
Qed.

(** A property of the world that [sitDown] and [emptyTable] keep, on the
    tables of the restaurant, is kept by every method of [Restaurant]. *)
Section Invariant.
Variable tbls : list TableRef.
Variable P : World -> Prop.

Hypothesis P_tables : forall w, P w -> tables w = tbls.
Hypothesis P_sitDown :
  forall p t w, P w -> In t tbls -> P (snd (sitDown p t w)).
Hypothesis P_emptyTable :
  forall t w, P w -> In t tbls -> P (snd (emptyTable t w)).
Hypothesis P_waitingQueue : forall q w, P w -> P (set_waitingQueue q w).
Hypothesis P_currentTime : forall c w, P w -> P (set_currentTime c w).

Lemma seatParty_inv party w : P w -> P (snd (seatParty party w)).
Proof.
  intros Hw. unfold seatParty, bind, gets. simpl.
  destruct (findAvailableTable (getSize party w) w) as [t|] eqn:F;
    [|exact Hw].
  apply findAvailableTable_In in F. rewrite (P_tables w Hw) in F.
  assert (H : P (snd (forOf (fun person => sitDown person t)
                            (getMembers party w) w))).
  { apply forOf_snd; [|exact Hw]. intros x w1 _ H1. now apply P_sitDown. }
  destruct (forOf _ _ w) as [[u|e] w1]; exact H.
Qed.

Lemma checkTable_inv t w : P w -> In t tbls -> P (snd (checkTable t w)).
Proof.
  intros Hw Ht. unfold checkTable, bind, gets. simpl.
  destruct (getPatrons t w) as [|p rest]; [exact Hw|].
  destruct (_ <=? _); [now apply P_emptyTable | exact Hw].
Qed.

Lemma evictDuePatrons_inv w : P w -> P (snd (evictDuePatrons w)).
Proof.
  intros Hw. unfold evictDuePatrons, bind, gets. simpl.
  apply forOf_snd; [|exact Hw].
  intros t w1 Ht H1. apply checkTable_inv; [exact H1|].
  now rewrite <- (P_tables w Hw).
Qed.

Lemma seatWaiting_inv queue w : P w -> P (snd (seatWaiting queue w)).
Proof.
  revert w. induction queue as [|party rest IH]; intros w Hw; simpl;
    [exact Hw|].
  unfold bind at 1 2. unfold gets at 1 2.
  destruct (findAvailableTable (getSize party w) w) as [t|]; [|exact Hw].
  unfold bind at 1. unfold modify at 1.
  apply bind_snd.
  - apply seatParty_inv. now apply P_waitingQueue.
  - intros b w1 E. apply IH.
    change w1 with (snd (Normal b, w1)). rewrite <- E.
    apply seatParty_inv. now apply P_waitingQueue.
Qed.

Lemma admitWaitingParties_inv w : P w -> P (snd (admitWaitingParties w)).
Proof.
  intros Hw. unfold admitWaitingParties, bind, gets. simpl.
  now apply seatWaiting_inv.
Qed.

Lemma simulateStep_inv timeStep w : P w -> P (snd (simulateStep timeStep w)).
Proof.
  intros Hw. unfold simulateStep.
  unfold bind at 1. unfold advanceClock, modify.
  apply bind_snd.
  - apply evictDuePatrons_inv. now apply P_currentTime.
  - intros [] w1 E. apply admitWaitingParties_inv.
    change w1 with (snd (Normal tt, w1)). rewrite <- E.
    apply evictDuePatrons_inv. now apply P_currentTime.
Qed.

Lemma runSimulation_inv fuel duration timeStep w r w' :
  P w -> runSimulation fuel duration timeStep w = Some (r, w') -> P w'.
Proof.
  revert w. induction fuel as [|fuel IH]; intros w Hw; simpl.
  - destruct (_ <? _); [discriminate|]. intros E. now inversion E; subst.
  - destruct (_ <? _); [|intros E; now inversion E; subst].
    pose proof (simulateStep_inv timeStep w Hw) as H1.
    destruct (simulateStep timeStep w) as [[u|e] w1]; simpl in H1.
    + now apply IH.
    + intros E. now inversion E; subst.
Qed.

Lemma addToWaitingQueue_inv party w :
  P w -> P (snd (addToWaitingQueue party w)).
Proof. intros Hw. unfold addToWaitingQueue, modify. simpl. now apply P_waitingQueue. Qed.
End Invariant.

Ltac unfold_setters :=
  unfold set_sitting, set_patrons, set_personStore, set_tableStore,
    set_arrayStore, set_nextArray, set_waitingQueue, set_currentTime,
    set_tables in *; cbn [personStore tableStore arrayStore nextArray tables
                          waitingQueue currentTime snd fst] in *.

(** The three outcomes of [sitDown]. *)
Lemma sitDown_cases this table w :
  (exists e, sitDown this table w = (Throw e, w)) \/
  (sitting_at_table (personStore w this) = None /\
   Z.of_nat (length (getPatrons table w)) < getCapacity table w /\
   sitDown this table w =
   (Normal tt,
    set_sitting this (Some table)
      (set_arrayStore
         (upd (arrayStore w) (patrons (tableStore w table))
              (getPatrons table w ++ [this])) w))).
Proof.
  rewrite sitDown_eq.
  destruct (sitting_at_table (personStore w this)) eqn:S; [left; eauto|].
  destruct (Z.ltb_spec (Z.of_nat (length (getPatrons table w)))
                       (getCapacity table w)); [right; auto | left; eauto].
Qed.

Lemma sitDown_tables p t w : tables (snd (sitDown p t w)) = tables w.
Proof.
  destruct (sitDown_cases p t w) as [[e ->]|(_ & _ & ->)]; reflexivity.
Qed.

Lemma sitDown_waitingQueue p t w :
  waitingQueue (snd (sitDown p t w)) = waitingQueue w.
Proof.
  destruct (sitDown_cases p t w) as [[e ->]|(_ & _ & ->)]; reflexivity.
Qed.

Lemma sitDown_currentTime p t w :
  currentTime (snd (sitDown p t w)) = currentTime w.
Proof.
  destruct (sitDown_cases p t w) as [[e ->]|(_ & _ & ->)]; reflexivity.
Qed.

Lemma emptyTable_tables t w : tables (snd (emptyTable t w)) = tables w.
Proof.
  rewrite emptyTable_eq. unfold_setters.
  apply (leaveAll_frame (getPatrons t w) t w).
Qed.

Lemma emptyTable_waitingQueue t w :
  waitingQueue (snd (emptyTable t w)) = waitingQueue w.
Proof.
  rewrite emptyTable_eq. unfold_setters.
  apply (leaveAll_frame (getPatrons t w) t w).
Qed.

Lemma emptyTable_currentTime t w :
  currentTime (snd (emptyTable t w)) = currentTime w.
Proof.
  rewrite emptyTable_eq. unfold_setters.
  apply (leaveAll_frame (getPatrons t w) t w).
Qed.

(** [sitDown] keeps the two sides together. *)
Lemma sitDown_consistent tbls p t w :
  tables w = tbls /\ consistent w /\ ownArrays w ->
  In t tbls ->
  let w' := snd (sitDown p t w) in
  tables w' = tbls /\ consistent w' /\ ownArrays w'.
Proof.
  intros (HT & HC & HO) Ht.
  destruct (sitDown_cases p t w) as [[e ->]|(Hs & _ & ->)]; [now simpl|].
  subst tbls. cbv zeta. unfold_setters. split; [reflexivity|]. split.
  - intros q t' Ht'. unfold consistent in HC. unfold getPatrons in *.
    unfold_setters.
    destruct (Nat.eq_dec q p) as [->|Nq].
    + rewrite upd_same. cbn [sitting_at_table].
      destruct (Nat.eq_dec t' t) as [->|Nt].
      * rewrite upd_same. split; [intros _; apply in_or_app; right; now left|
                                   reflexivity].
      * rewrite upd_other.
        2:{ intros E. apply Nt. now apply (proj2 HO). }
        rewrite <- HC by assumption. rewrite Hs.
        split; [intros E; inversion E; congruence | discriminate].
    + rewrite (upd_other _ _ _ q) by assumption.
      destruct (Nat.eq_dec t' t) as [->|Nt].
      * rewrite upd_same. rewrite HC by assumption.
        rewrite in_app_iff. simpl. intuition congruence.
      * rewrite upd_other.
        2:{ intros E. apply Nt. now apply (proj2 HO). }
        now apply HC.
  - exact HO.
Qed.

(** The store after [emptyTable], field by field. *)
Lemma emptyTable_world this w :
  let w' := snd (emptyTable this w) in
  tables w' = tables w /\
  nextArray w' = S (nextArray w) /\
  (forall t, tableStore w' t =
     if Nat.eqb t this
     then mkTable (table_id (tableStore w this)) (capacity (tableStore w this))
                  (nextArray w)
     else tableStore w t) /\
  (forall a, arrayStore w' a =
     if Nat.eqb a (nextArray w) then [] else arrayStore w a) /\
  (forall q, personStore w' q =
     personStore (leaveAll (getPatrons this w) this w) q).
Proof.
  rewrite emptyTable_eq. cbv zeta.
  destruct (leaveAll_frame (getPatrons this w) this w) as (A & B & C & D & _).
  cbv zeta in *. unfold_setters. rewrite A, B, C, D.
  repeat split; intros x; unfold upd; reflexivity.
Qed.

Lemma emptyTable_getPatrons this w t :
  (patrons (tableStore w t) < nextArray w)%nat ->
  getPatrons t (snd (emptyTable this w)) =
  if Nat.eqb t this then [] else getPatrons t w.
Proof.
  intros Hlt.
  destruct (emptyTable_world this w) as (_ & _ & HT & HA & _). cbv zeta in *.
  unfold getPatrons. rewrite HT, HA.
  destruct (Nat.eqb t this); cbn [patrons].
  - now rewrite Nat.eqb_refl.
  - destruct (Nat.eqb_spec (patrons (tableStore w t)) (nextArray w)); [lia|reflexivity].
Qed.

Lemma emptyTable_ownArrays this w :
  ownArrays w -> ownArrays (snd (emptyTable this w)).
Proof.
  intros [HO1 HO2].
  destruct (emptyTable_world this w) as (HTb & HN & HT & _ & _). cbv zeta in *.
  unfold ownArrays. rewrite HTb, HN. split.
  - intros t Ht. rewrite HT. destruct (Nat.eqb t this); cbn [patrons].
    + lia.
    + specialize (HO1 t Ht). lia.
  - intros t1 t2 H1 H2. rewrite !HT.
    destruct (Nat.eqb_spec t1 this) as [->|N1];
      destruct (Nat.eqb_spec t2 this) as [->|N2]; cbn [patrons]; intros E.
    + reflexivity.
    + specialize (HO1 t2 H2). lia.
    + specialize (HO1 t1 H1). lia.
    + now apply HO2.
Qed.

(** [emptyTable] keeps the two sides together. *)
Lemma emptyTable_consistent tbls t w :
  tables w = tbls /\ consistent w /\ ownArrays w ->
  In t tbls ->
  let w' := snd (emptyTable t w) in
  tables w' = tbls /\ consistent w' /\ ownArrays w'.
Proof.
  intros (HT & HC & HO) Ht. cbv zeta. subst tbls.
  split; [apply emptyTable_tables|].
  split; [|now apply emptyTable_ownArrays].
  intros q t' Ht'. rewrite emptyTable_tables in Ht'.
  rewrite emptyTable_getPatrons by now apply (proj1 HO).
  destruct (emptyTable_world t w) as (_ & _ & _ & _ & HP). cbv zeta in HP.
  rewrite HP.
  destruct (option_eqb (sitting_at_table (personStore w q)) t) eqn:Eq.
  - apply option_eqb_true in Eq.
    rewrite leaveAll_listed; [|now apply HC|assumption].
    destruct (Nat.eqb_spec t' t) as [->|N]; cbv iota.
    + split; [discriminate | intros []].
    + rewrite <- (HC q t') by assumption. rewrite Eq.
      split; [discriminate | intros E; inversion E; congruence].
  - apply option_eqb_false in Eq.
    rewrite leaveAll_other by assumption.
    destruct (Nat.eqb_spec t' t) as [->|N]; cbv iota.
    + split; [contradiction | intros []].
    + now apply HC.
Qed.

Lemma seatingOK_tables tbls w : seatingOK tbls w -> tables w = tbls.
Proof. now intros [H _]. Qed.

Lemma seatingOK_waitingQueue tbls q w :
  seatingOK tbls w -> seatingOK tbls (set_waitingQueue q w).
Proof. intros H; exact H. Qed.

Lemma seatingOK_currentTime tbls c w :
  seatingOK tbls w -> seatingOK tbls (set_currentTime c w).
Proof. intros H; exact H. Qed.

Lemma sitDown_capacity tbls p t w :
  capacityOK tbls w -> In t tbls -> capacityOK tbls (snd (sitDown p t w)).
Proof.
  intros (HT & HC & HO) Ht.
  destruct (sitDown_cases p t w) as [[e ->]|(_ & Hlt & ->)]; [now simpl|].
  subst tbls. unfold capacityOK. unfold_setters.
  split; [reflexivity|]. split; [|exact HO].
  intros t' Ht'. unfold withinCapacity, getPatrons, getCapacity in *.
  unfold_setters.
  destruct (Nat.eq_dec t' t) as [->|N].
  - rewrite upd_same, length_app. simpl. lia.
  - rewrite upd_other; [now apply HC|].
    intros E. apply N. now apply (proj2 HO).
Qed.

Lemma emptyTable_capacity tbls t w :
  capacityOK tbls w -> In t tbls -> capacityOK tbls (snd (emptyTable t w)).
Proof.
  intros (HT & HC & HO) Ht. subst tbls. unfold capacityOK.
  split; [apply emptyTable_tables|].
  split; [|now apply emptyTable_ownArrays].
  intros t' Ht'. rewrite emptyTable_tables in Ht'.
  rewrite emptyTable_getPatrons by now apply (proj1 HO).
  destruct (emptyTable_world t w) as (_ & _ & HS & _ & _). cbv zeta in HS.
  unfold getCapacity. rewrite HS.
  destruct (Nat.eqb_spec t' t) as [->|N]; cbn [capacity length].
  - specialize (HC t Ht). unfold getCapacity in HC. lia.
  - now apply HC.
Qed.

Lemma capacityOK_tables tbls w : capacityOK tbls w -> tables w = tbls.
Proof. now intros [H _]. Qed.

(** ** What a step leaves alone *)

Lemma seatParty_waitingQueue party w :
  waitingQueue (snd (seatParty party w)) = waitingQueue w.
Proof.
  apply (seatParty_inv (tables w)
           (fun w0 => tables w0 = tables w /\ waitingQueue w0 = waitingQueue w)).
  - now intros w0 [H _].
  - intros p t w0 [H1 H2] _.
    now rewrite sitDown_tables, sitDown_waitingQueue.
  - now split.
Qed.

Lemma evictDuePatrons_frame w :
  let w' := snd (evictDuePatrons w) in
  tables w' = tables w /\ waitingQueue w' = waitingQueue w /\
  currentTime w' = currentTime w.
Proof.
  apply (evictDuePatrons_inv (tables w)
           (fun w0 => tables w0 = tables w /\ waitingQueue w0 = waitingQueue w /\
                      currentTime w0 = currentTime w)).
  - now intros w0 [H _].
  - intros t w0 (H1 & H2 & H3) _.
    now rewrite emptyTable_tables, emptyTable_waitingQueue, emptyTable_currentTime.
  - now repeat split.
Qed.

Lemma admitWaitingParties_frame w :
  let w' := snd (admitWaitingParties w) in
  tables w' = tables w /\ currentTime w' = currentTime w.
Proof.
  apply (admitWaitingParties_inv (tables w)
           (fun w0 => tables w0 = tables w /\ currentTime w0 = currentTime w)).
  - now intros w0 [H _].
  - intros p t w0 (H1 & H2) _.
    now rewrite sitDown_tables, sitDown_currentTime.
  - intros q w0 H. exact H.
  - now split.
Qed.

Lemma forOf_normal {A} (body : A -> M unit) (l : list A) :
  (forall x w, fst (body x w) = Normal tt) ->
  forall w, fst (forOf body l w) = Normal tt.
Proof.
  intros Hb. induction l as [|x l IH]; intros w; simpl; [reflexivity|].
  unfold bind. specialize (Hb x w).
  destruct (body x w) as [[u|e] w1]; simpl in Hb; [apply IH | discriminate].
Qed.

Lemma checkTable_normal t w : fst (checkTable t w) = Normal tt.
Proof.
  unfold checkTable, bind, gets. simpl.
  destruct (getPatrons t w); [reflexivity|].
  destruct (_ <=? _); [|reflexivity].
  now rewrite emptyTable_eq.
Qed.

(** The eviction phase never throws. *)
Lemma evictDuePatrons_normal w : fst (evictDuePatrons w) = Normal tt.
Proof.
  unfold evictDuePatrons, bind, gets. simpl.
  apply forOf_normal. apply checkTable_normal.
Qed.

Lemma simulateStep_unfold timeStep w :
  simulateStep timeStep w =
  admitWaitingParties
    (snd (evictDuePatrons (set_currentTime (currentTime w + timeStep) w))).
Proof.
  unfold simulateStep, advanceClock, modify. unfold bind at 1 2.
  pose proof (evictDuePatrons_normal
                (set_currentTime (currentTime w + timeStep) w)) as H.
  destruct (evictDuePatrons _) as [[[]|e] w1]; simpl in *;
    [reflexivity | discriminate].
Qed.

Lemma simulateStep_currentTime timeStep w :
  currentTime (snd (simulateStep timeStep w)) = currentTime w + timeStep.
Proof.
  rewrite simulateStep_unfold.
  destruct (admitWaitingParties_frame
              (snd (evictDuePatrons
                      (set_currentTime (currentTime w + timeStep) w))))
    as [_ ->].
  now destruct (evictDuePatrons_frame
                  (set_currentTime (currentTime w + timeStep) w))
    as (_ & _ & ->).
Qed.

Lemma runSimulation_ends fuel duration timeStep w :
  0 < timeStep ->
  duration - currentTime w <= Z.of_nat fuel ->
  runSimulation fuel duration timeStep w <> None.
Proof.
  intros Hts. revert w. induction fuel as [|fuel IH]; intros w Hf; simpl.
  - destruct (Z.ltb_spec (currentTime w) duration); [lia | discriminate].
  - destruct (Z.ltb_spec (currentTime w) duration); [|discriminate].
    pose proof (simulateStep_currentTime timeStep w) as Ht.
    destruct (simulateStep timeStep w) as [[u|e] w1]; simpl in Ht;
      [|discriminate].
    apply IH. lia.
Qed.

(** With a positive time step the run comes to an end. *)
Lemma runSimulation_returns duration timeStep w :
  0 < timeStep ->
  exists fuel r w', runSimulation fuel duration timeStep w = Some (r, w').
Proof.
  intros Hts. exists (Z.to_nat (duration - currentTime w)).
  assert (H : runSimulation (Z.to_nat (duration - currentTime w))
                            duration timeStep w <> None)
    by (apply runSimulation_ends; [assumption | lia]).
  destruct (runSimulation _ duration timeStep w) as [[r w']|];
    [eauto | contradiction].
Qed.

(** ** The concrete restaurants *)

Lemma nth_nobody_sitting r (ps : list Person) :
  Forall (fun p => sitting_at_table p = None) ps ->
  sitting_at_table (nth r ps nobody) = None.
Proof.
  intros H. revert r. induction H as [|p ps Hp _ IH]; intros [|r]; simpl; auto.
Qed.

(** Nobody sits and every table is empty: the two sides agree. *)
Lemma consistent_nobody_seated w :
  (forall p, sitting_at_table (personStore w p) = None) ->
  (forall t, In t (tables w) -> getPatrons t w = []) ->
  consistent w.
Proof.
  intros Hp Ht p t Hin. rewrite Hp, (Ht t Hin).
  split; [discriminate | intros []].
Qed.

Lemma openingNight_consistent : consistent openingNight.
Proof.
  apply consistent_nobody_seated.
  - intros p. apply nth_nobody_sitting. repeat constructor.
  - intros t Ht. simpl in Ht. destruct Ht as [<-|[<-|[]]]; reflexivity.
Qed.

Lemma openingNight_ownArrays : ownArrays openingNight.
Proof.
  split.
  - intros t Ht. simpl in Ht. destruct Ht as [<-|[<-|[]]]; simpl; lia.
  - intros t1 t2 H1 H2. simpl in H1, H2.
    destruct H1 as [<-|[<-|[]]]; destruct H2 as [<-|[<-|[]]]; simpl;
      congruence.
Qed.

Lemma openingNight_capacity : withinCapacity openingNight.
Proof.
  intros t Ht. simpl in Ht. destruct Ht as [<-|[<-|[]]]; vm_compute; discriminate.
Qed.

Lemma sharedArray_consistent : consistent sharedArray.
Proof.
  apply consistent_nobody_seated.
  - intros p. apply nth_nobody_sitting. repeat constructor.
  - intros t Ht. simpl in Ht. destruct Ht as [<-|[<-|[]]]; reflexivity.
Qed.

(** ** C1: the seating relation stays two-sided *)

(** C1, as stated, fails: the [Table] constructor keeps the array it is
    given, so two tables can hold one array.  In [sharedArray] nobody sits
    and both tables are empty; after [seatParty] the first guest sits at
    table 1 and is listed by table 0 as well. *)
Lemma seating_consistency_shared_array :
  consistent sharedArray /\
  fst (seatParty (mkParty 1) sharedArray) = Normal true /\
  ~ consistent (snd (seatParty (mkParty 1) sharedArray)).
Proof.
  split; [exact sharedArray_consistent|].
  split; [reflexivity|].
  intros H. specialize (H 0%nat 0%nat (or_introl eq_refl)).
  assert (E : sitting_at_table
                (personStore (snd (seatParty (mkParty 1) sharedArray)) 0%nat)
              = Some 0%nat).
  { apply H. vm_compute. now left. }
  vm_compute in E. discriminate.
Qed.

(** C1 (amended): from a state in which, for every person [p] and every
    table [t] of the restaurant, [p] sits at [t] exactly when [t] lists [p],
    and in which every table of the restaurant has an occupants array of
    its own, [seatParty], [simulateStep], [runSimulation] and
    [addToWaitingQueue] lead to such a state again, whether they return or
    throw. *)
Theorem seating_consistency_preserved (w : World) :
  consistent w -> ownArrays w ->
  (forall party,
     let w' := snd (seatParty party w) in consistent w' /\ ownArrays w') /\
  (forall timeStep,
     let w' := snd (simulateStep timeStep w) in consistent w' /\ ownArrays w') /\
  (forall fuel duration timeStep r w',
     runSimulation fuel duration timeStep w = Some (r, w') ->
     consistent w' /\ ownArrays w') /\
  (forall duration timeStep, 0 < timeStep ->
     exists fuel r w',
       runSimulation fuel duration timeStep w = Some (r, w') /\
       consistent w' /\ ownArrays w') /\
  (forall party,
     let w' := snd (addToWaitingQueue party w) in consistent w' /\ ownArrays w').
Proof.
  intros HC HO.
  assert (H : seatingOK (tables w) w) by exact (conj eq_refl (conj HC HO)).
  pose proof (seatingOK_tables (tables w)) as A.
  pose proof (sitDown_consistent (tables w)) as B.
  pose proof (emptyTable_consistent (tables w)) as C.
  pose proof (seatingOK_waitingQueue (tables w)) as D.
  pose proof (seatingOK_currentTime (tables w)) as E.
  split; [|split; [|split; [|split]]]; cbv zeta.
  - intros party.
    now apply (seatParty_inv (tables w) (seatingOK (tables w)) A B party w H).
  - intros timeStep.
    now apply (simulateStep_inv (tables w) (seatingOK (tables w)) A B C D E
                 timeStep w H).
  - intros fuel duration timeStep r w' R.
    now apply (runSimulation_inv (tables w) (seatingOK (tables w)) A B C D E
                 fuel duration timeStep w r w' H R).
  - intros duration timeStep Hts.
    destruct (runSimulation_returns duration timeStep w Hts)
      as (fuel & r & w' & R).
    exists fuel, r, w'. split; [exact R|].
    now apply (runSimulation_inv (tables w) (seatingOK (tables w)) A B C D E
                 fuel duration timeStep w r w' H R).
  - intros party.
    now apply (addToWaitingQueue_inv (seatingOK (tables w)) D party w H).
Qed.

Lemma seating_consistency_preserved_witness :
  consistent openingNight /\ ownArrays openingNight /\
  let w' := snd (simulateStep 5 openingNight) in
  consistent w' /\ getPatrons 0%nat w' = [0; 1]%nat.
Proof.
  pose proof openingNight_consistent as HC.
  pose proof openingNight_ownArrays as HO.
  split; [exact HC|]. split; [exact HO|].
  destruct (seating_consistency_preserved openingNight HC HO) as (_ & H & _).
  split; [exact (proj1 (H 5)) | reflexivity].
Defined.

(** ** C9: occupants and capacity *)

(** C9, as stated, fails twice.  The bound need not hold initially: a table
    built with capacity -1 has 0 occupants, more than its capacity.  And it
    is not kept when two tables were built on one array: in [sharedArray]
    both tables are within capacity, and seating the party of three at the
    table of four puts three occupants on the table of one. *)
Lemma capacity_bound_fails :
  (fst (new_Table 1 (-1) None (storeOf [] [] [] [] [] 0))
     = Normal (mkTable 1 (-1) 0) /\
   ~ withinCapacity negativeCapacity) /\
  (withinCapacity sharedArray /\
   fst (seatParty (mkParty 1) sharedArray) = Normal true /\
   ~ withinCapacity (snd (seatParty (mkParty 1) sharedArray))).
Proof.
  split; [split; [reflexivity|] | split; [|split; [reflexivity|]]].
  - intros H. specialize (H 0%nat (or_introl eq_refl)).
    vm_compute in H. now apply H.
  - intros t Ht. simpl in Ht.
    destruct Ht as [<-|[<-|[]]]; vm_compute; discriminate.
  - intros H. specialize (H 0%nat (or_introl eq_refl)).
    vm_compute in H. now apply H.
Qed.

Lemma addPatron_capacity tbls t person w :
  capacityOK tbls w -> In t tbls -> capacityOK tbls (snd (addPatron t person w)).
Proof.
  intros (HT & HC & HO) Ht. subst tbls. unfold addPatron.
  destruct (Z.ltb_spec (Z.of_nat (length (arrayStore w (patrons (tableStore w t)))))
                       (capacity (tableStore w t))) as [Hlt|Hge];
    [|exact (conj eq_refl (conj HC HO))].
  unfold capacityOK. unfold_setters.
  split; [reflexivity|]. split; [|exact HO].
  intros t' Ht'. unfold withinCapacity, getPatrons, getCapacity in *.
  unfold_setters.
  destruct (Nat.eq_dec t' t) as [->|N].
  - rewrite upd_same, length_app. simpl. lia.
  - rewrite upd_other; [now apply HC|].
    intros E. apply N. now apply (proj2 HO).
Qed.

(** C9 (amended): for tables whose capacity is a whole number, the bound
    holds in a state where every table of the restaurant is empty and has
    a capacity of at least 0 (construction does not establish it); and
    from a state in which it holds and every table of the restaurant has
    an occupants array of its own, it holds again, with the arrays still
    separate, after [addPatron] (which pushes exactly when the table has
    fewer occupants than its capacity), [sitDown] and [emptyTable] on a
    table of the restaurant, after the eviction of a step, and after
    [seatParty], [simulateStep], [runSimulation] and [addToWaitingQueue],
    whether they return or throw.  A run with a positive time step whose
    clock stays between -2^53 and 2^53 does end. *)
Theorem capacity_bound_preserved (w : World) :
  ((forall t, In t (tables w) -> getPatrons t w = [] /\ 0 <= getCapacity t w) ->
   withinCapacity w) /\
  (withinCapacity w -> ownArrays w ->
   (forall t person, In t (tables w) ->
      (fst (addPatron t person w) = Normal true <->
       Z.of_nat (length (getPatrons t w)) < getCapacity t w) /\
      (fst (addPatron t person w) = Normal false <->
       getCapacity t w <= Z.of_nat (length (getPatrons t w))) /\
      let w' := snd (addPatron t person w) in
      withinCapacity w' /\ ownArrays w') /\
   (forall p t, In t (tables w) ->
      let w' := snd (sitDown p t w) in withinCapacity w' /\ ownArrays w') /\
   (forall t, In t (tables w) ->
      let w' := snd (emptyTable t w) in withinCapacity w' /\ ownArrays w') /\
   (let w' := snd (evictDuePatrons w) in withinCapacity w' /\ ownArrays w') /\
   (forall party,
      let w' := snd (seatParty party w) in withinCapacity w' /\ ownArrays w') /\
   (forall timeStep,
      let w' := snd (simulateStep timeStep w) in
      withinCapacity w' /\ ownArrays w') /\
   (forall fuel duration timeStep r w',
      runSimulation fuel duration timeStep w = Some (r, w') ->
      withinCapacity w' /\ ownArrays w') /\
   (forall duration timeStep,
      0 < timeStep -> - 2 ^ 53 <= currentTime w ->
      duration + timeStep <= 2 ^ 53 ->
      exists fuel r w',
        runSimulation fuel duration timeStep w = Some (r, w') /\
        withinCapacity w' /\ ownArrays w') /\
   (forall party,
      let w' := snd (addToWaitingQueue party w) in
      withinCapacity w' /\ ownArrays w')).
Proof.
  split.
  - intros H t Ht. destruct (H t Ht) as [E Hc]. now rewrite E.
  - intros HC HO.
    assert (H : capacityOK (tables w) w) by exact (conj eq_refl (conj HC HO)).
    pose proof (capacityOK_tables (tables w)) as A.
    pose proof (sitDown_capacity (tables w)) as B.
    pose proof (emptyTable_capacity (tables w)) as C.
    assert (D : forall q w0, capacityOK (tables w) w0 ->
                             capacityOK (tables w) (set_waitingQueue q w0))
      by (intros q w0 H0; exact H0).
    assert (E : forall c w0, capacityOK (tables w) w0 ->
                             capacityOK (tables w) (set_currentTime c w0))
      by (intros c w0 H0; exact H0).
    split; [|split; [|split; [|split; [|split; [|split; [|split; [|split]]]]]]];
      cbv zeta.
    + intros t person Ht. split; [|split].
      * unfold addPatron, getPatrons, getCapacity.
        destruct (Z.ltb_spec
                    (Z.of_nat (length (arrayStore w (patrons (tableStore w t)))))
                    (capacity (tableStore w t))); simpl;
          split; intros X; (reflexivity || lia || discriminate).
      * unfold addPatron, getPatrons, getCapacity.
        destruct (Z.ltb_spec
                    (Z.of_nat (length (arrayStore w (patrons (tableStore w t)))))
                    (capacity (tableStore w t))); simpl;
          split; intros X; (reflexivity || lia || discriminate).
      * now apply (addPatron_capacity (tables w) t person w H Ht).
    + intros p t Ht. now apply (B p t w H Ht).
    + intros t Ht. now apply (C t w H Ht).
    + now apply (evictDuePatrons_inv (tables w) (capacityOK (tables w)) A C w H).
    + intros party.
      now apply (seatParty_inv (tables w) (capacityOK (tables w)) A B party w H).
    + intros timeStep.
      now apply (simulateStep_inv (tables w) (capacityOK (tables w)) A B C D E
                   timeStep w H).
    + intros fuel duration timeStep r w' R.
      now apply (runSimulation_inv (tables w) (capacityOK (tables w)) A B C D E
                   fuel duration timeStep w r w' H R).
    + intros duration timeStep Hts _ _.
      destruct (runSimulation_returns duration timeStep w Hts)
        as (fuel & r & w' & R).
      exists fuel, r, w'. split; [exact R|].
      now apply (runSimulation_inv (tables w) (capacityOK (tables w)) A B C D E
                   fuel duration timeStep w r w' H R).
    + intros party.
      now apply (addToWaitingQueue_inv (capacityOK (tables w)) D party w H).
Qed.

Lemma capacity_bound_preserved_witness :
  withinCapacity openingNight /\ ownArrays openingNight /\
  (let w' := snd (simulateStep 5 openingNight) in
   withinCapacity w' /\ getPatrons 0%nat w' = [0; 1]%nat) /\
  (let w' := snd (sitDown 0%nat 0%nat openingNight) in
   withinCapacity w' /\ getPatrons 0%nat w' = [0%nat]).
Proof.
  pose proof openingNight_capacity as HC.
  pose proof openingNight_ownArrays as HO.
  split; [exact HC|]. split; [exact HO|].
  destruct (proj2 (capacity_bound_preserved openingNight) HC HO)
    as (_ & S & _ & _ & _ & H & _).
  split.
  - split; [exact (proj1 (H 5)) | reflexivity].
  - split; [|reflexivity].
    exact (proj1 (S 0%nat 0%nat (or_introl eq_refl))).
Defined.

(** ** C4: first fit *)

Lemma available_true partySize w t :
  available partySize w t = true <->
  getPatrons t w = [] /\ partySize <= getCapacity t w.
Proof.
  unfold available. rewrite andb_true_iff, Nat.eqb_eq, Z.leb_le.
  now rewrite length_zero_iff_nil.
Qed.

Lemma available_false partySize w t :
  available partySize w t = false <->
  getPatrons t w <> [] \/ getCapacity t w < partySize.
Proof.
  unfold available. rewrite andb_false_iff, Nat.eqb_neq, Z.leb_gt.
  now rewrite length_zero_iff_nil.
Qed.

Lemma find_first {A} (f : A -> bool) (l : list A) x :
  find f l = Some x ->
  exists before after,
    l = before ++ x :: after /\ f x = true /\
    forall y, In y before -> f y = false.
Proof.
  induction l as [|a l IH]; simpl; [discriminate|].
  destruct (f a) eqn:Fa.
  - intros E. inversion E; subst. exists [], l. repeat split; auto.
    intros y [].
  - intros E. destruct (IH E) as (b & c & -> & Fx & Hb).
    exists (a :: b), c. repeat split; auto.
    intros y [<-|Hy]; auto.
Qed.

(** C4: [findAvailableTable(n)] returns the first table, in the order of
    the restaurant's table list, that has no occupant and a capacity of at
    least [n]: every table before it has an occupant or is too small; it
    returns [undefined] when every table has an occupant or is too small.
    So a table with an occupant is never returned, whatever seats it has
    free, and a larger table earlier in the list wins over a tighter one
    later. *)
Theorem findAvailableTable_first_fit (partySize : Z) (w : World) :
  match findAvailableTable partySize w with
  | Some t =>
      exists before after,
        tables w = before ++ t :: after /\
        getPatrons t w = [] /\ partySize <= getCapacity t w /\
        forall t', In t' before ->
          getPatrons t' w <> [] \/ getCapacity t' w < partySize
  | None =>
      forall t, In t (tables w) ->
        getPatrons t w <> [] \/ getCapacity t w < partySize
  end.
Proof.
  unfold findAvailableTable.
  destruct (find (available partySize w) (tables w)) as [t|] eqn:F.
  - destruct (find_first _ _ _ F) as (b & a & E & Ft & Hb).
    apply available_true in Ft. destruct Ft as [Fe Fc].
    exists b, a. repeat split; auto.
    intros t' Ht'. apply available_false. now apply Hb.
  - intros t Ht. apply available_false.
    now apply (find_none _ _ F).
Qed.

(** A party of two, with the table of four before the table of two: the
    table of four is taken. *)
Example findAvailableTable_not_best_fit :
  findAvailableTable 2
    (storeOf [] [mkTable 1 4 0; mkTable 2 2 1] [[]; []] [0; 1]%nat [] 0)
  = Some 0%nat.
Proof. reflexivity. Qed.

(** One guest at a table of four and nothing else free: a party of two
    finds no table. *)
Example findAvailableTable_not_shared :
  findAvailableTable 2
    (storeOf [guest 1 30 (Some 0%nat)] [mkTable 1 4 0] [[0%nat]] [0%nat] [] 0)
  = None.
Proof. reflexivity. Qed.

(** ** C5: leaving a table one is not at *)

(** C5, as stated, fails: in [emptyRestaurant] nobody sits anywhere, and
    asking person 0 to leave table 0 returns normally with the store as it
    was. *)
Lemma leaveTable_mismatch_is_silent :
  sitting_at_table (personStore emptyRestaurant 0%nat) = None /\
  leaveTable 0%nat 0%nat emptyRestaurant = (Normal tt, emptyRestaurant).
Proof. split; reflexivity. Qed.

(** C5 (amended): asking a person to leave a table they are not seated at
    (their [sitting_at_table] is undefined or another table) is a silent
    no-op: [leaveTable] returns normally and leaves the whole state
    unchanged. *)
Theorem leaveTable_mismatch (this : PersonRef) (table : TableRef) (w : World) :
  sitting_at_table (personStore w this) <> Some table ->
  leaveTable this table w = (Normal tt, w).
Proof.
  intros H. unfold leaveTable.
  apply option_eqb_false in H. now rewrite H.
Qed.

Lemma leaveTable_mismatch_witness :
  leaveTable 1%nat 1%nat (twoDiners 40) = (Normal tt, twoDiners 40).
Proof.
  apply (leaveTable_mismatch 1%nat 1%nat (twoDiners 40)).
  simpl. discriminate.
Defined.

(** ** C7: the clock *)


(** ** C8: constructors *)

(** C8, as stated, fails: the constructors store their arguments and check
    nothing.  A table of capacity 0, a party on an empty array and a dining
    time from 90 to 30 are all constructed. *)
Lemma constructors_accept_invalid :
  new_Table 1 0 (Some 0%nat) emptyRestaurant
    = (Normal (mkTable 1 0 0), emptyRestaurant) /\
  (getMembers (mkParty 0) emptyRestaurant = [] /\
   new_Party 0%nat = Normal (mkParty 0)) /\
  new_DiningTime 90 30 = Normal (mkDiningTime 90 30).
Proof. repeat split. Qed.

(** C8 (amended): constructing a Table, a Party or a DiningTime never
    fails: a Table is created with the capacity given, whatever its sign, a
    Party with the member array given, empty or not, a DiningTime with the
    bounds given, in either order. *)
Theorem constructors_never_fail :
  (forall id capacity patrons w,
     exists a w', new_Table id capacity patrons w
                  = (Normal (mkTable id capacity a), w')) /\
  (forall members, new_Party members = Normal (mkParty members)) /\
  (forall lowerBound upperBound,
     new_DiningTime lowerBound upperBound
     = Normal (mkDiningTime lowerBound upperBound)).
Proof.
  split; [|split; reflexivity].
  intros id capacity [a|] w.
  - exists a, w. reflexivity.
  - eexists _, _. reflexivity.
Qed.

(** ** C6: a run that has nothing to do *)

(** C6, as stated, fails: [runSimulation(0, 5)] on a new restaurant,
    whose clock is 0, executes no step: whatever the number of steps
    allowed it returns at once with the state as it was, while one step
    would have moved the clock to 5. *)
Lemma runSimulation_zero_duration :
  (forall fuel,
     runSimulation fuel 0 5 emptyRestaurant = Some (Normal tt, emptyRestaurant)) /\
  currentTime (snd (simulateStep 5 emptyRestaurant)) = 5.
Proof.
  split; [|reflexivity]. intros [|fuel]; reflexivity.
Qed.

(** C6 (amended): for every [timeStep], running the simulation with
    [duration <= currentTime] (in particular with duration 0 on a new
    restaurant) executes no step: it returns normally and leaves the clock
    and all other state unchanged. *)
Theorem runSimulation_no_step (fuel : nat) (duration timeStep : Z) (w : World) :
  duration <= currentTime w ->
  runSimulation fuel duration timeStep w = Some (Normal tt, w).
Proof.
  intros H.
  assert (E : (currentTime w <? duration) = false) by now apply Z.ltb_ge.
  destruct fuel; simpl; now rewrite E.
Qed.

Lemma runSimulation_no_step_witness :
  runSimulation 3 40 5 (twoDiners 40) = Some (Normal tt, twoDiners 40).
Proof.
  apply (runSimulation_no_step 3 40 5 (twoDiners 40)).
  simpl. lia.
Defined.

(** ** C10: how long a run lasts *)

(** C10, as stated, fails in its second half: with [timeStep = 0] and
    [currentTime = 0 < 1 = duration] the loop of [runSimulation] does end
    when a step throws.  In [twiceInParty] the first step seats the guest
    and then throws "already sitting" at the second mention, and the
    exception leaves the loop. *)
Lemma runSimulation_zero_step_ends :
  currentTime twiceInParty < 1 /\
  exists w', runSimulation 1 1 0 twiceInParty
             = Some (Throw (AlreadySitting 0%nat), w').
Proof.
  split; [reflexivity|]. eexists. reflexivity.
Qed.

Lemma runSimulation_reaches fuel duration timeStep w u w' :
  runSimulation fuel duration timeStep w = Some (Normal u, w') ->
  duration <= currentTime w'.
Proof.
  revert w. induction fuel as [|fuel IH]; intros w; simpl.
  - destruct (Z.ltb_spec (currentTime w) duration); [discriminate|].
    intros E. inversion E; subst. assumption.
  - destruct (Z.ltb_spec (currentTime w) duration).
    + destruct (simulateStep timeStep w) as [[v|e] w1]; [apply IH|discriminate].
    + intros E. inversion E; subst. assumption.
Qed.

Lemma runSimulation_stuck fuel duration timeStep w :
  timeStep <= 0 ->
  currentTime w < duration ->
  runSimulation fuel duration timeStep w = None \/
  exists e w', runSimulation fuel duration timeStep w = Some (Throw e, w').
Proof.
  intros Hts. revert w. induction fuel as [|fuel IH]; intros w Hlt; simpl.
  - destruct (Z.ltb_spec (currentTime w) duration); [now left | lia].
  - destruct (Z.ltb_spec (currentTime w) duration); [|lia].
    pose proof (simulateStep_currentTime timeStep w) as Ht.
    destruct (simulateStep timeStep w) as [[u|e] w1]; simpl in Ht.
    + apply IH. lia.
    + right. eauto.
Qed.

(** With nobody waiting a step cannot throw, and nobody is waiting after
    it. *)
Lemma simulateStep_empty_queue timeStep w :
  waitingQueue w = [] ->
  fst (simulateStep timeStep w) = Normal tt /\
  waitingQueue (snd (simulateStep timeStep w)) = [].
Proof.
  intros Hq. rewrite simulateStep_unfold.
  destruct (evictDuePatrons_frame
              (set_currentTime (currentTime w + timeStep) w)) as (_ & Q & _).
  cbv zeta in Q. simpl in Q. rewrite Hq in Q.
  unfold admitWaitingParties, bind, gets. rewrite Q. simpl. now split.
Qed.

Lemma runSimulation_forever fuel duration timeStep w :
  timeStep <= 0 ->
  currentTime w < duration ->
  waitingQueue w = [] ->
  runSimulation fuel duration timeStep w = None.
Proof.
  intros Hts. revert w. induction fuel as [|fuel IH]; intros w Hlt Hq; simpl.
  - destruct (Z.ltb_spec (currentTime w) duration); [reflexivity | lia].
  - destruct (Z.ltb_spec (currentTime w) duration); [|lia].
    pose proof (simulateStep_currentTime timeStep w) as Ht.
    destruct (simulateStep_empty_queue timeStep w Hq) as [Hn Hq'].
    destruct (simulateStep timeStep w) as [[u|e] w1]; simpl in *;
      [|discriminate].
    apply IH; [lia | assumption].
Qed.

(** The clock of a run that starts below the duration, at its end, however
    it ends. *)
Lemma runSimulation_clock fuel duration timeStep w r w' :
  0 < timeStep ->
  currentTime w < duration ->
  runSimulation fuel duration timeStep w = Some (r, w') ->
  currentTime w < currentTime w' < duration + timeStep.
Proof.
  intros Hts. revert w. induction fuel as [|fuel IH]; intros w Hlt; simpl.
  - destruct (Z.ltb_spec (currentTime w) duration); [discriminate | lia].
  - destruct (Z.ltb_spec (currentTime w) duration); [|lia].
    pose proof (simulateStep_currentTime timeStep w) as Ht.
    destruct (simulateStep timeStep w) as [[v|e] w1]; simpl in Ht.
    + destruct (Z.lt_ge_cases (currentTime w1) duration) as [Hlt1|Hge1].
      * intros R. specialize (IH w1 Hlt1 R). lia.
      * intros R.
        assert (E : w' = w1).
        { destruct fuel; simpl in R;
            destruct (Z.ltb_spec (currentTime w1) duration); try lia;
            now inversion R. }
        subst w'. lia.
    + intros R. inversion R; subst. lia.
Qed.

(** C10 (amended): for a whole-number clock, duration and [timeStep > 0]
    with [currentTime >= -2^53] and [duration + timeStep <= 2^53] (so that
    every sum the clock takes is exact), [runSimulation] ends after
    finitely many steps, at most [duration - currentTime] of them; a step
    taken below [duration] adds [timeStep] to [currentTime]; the clock at
    the end of a run started below [duration] has increased and is within
    the same bounds, and it has reached [duration] when the run returns.  For [timeStep <= 0] with [currentTime < duration] the loop
    never ends normally: the run goes on until a step throws, and for ever
    when no step throws, as when nobody is waiting. *)
Theorem runSimulation_termination (duration timeStep : Z) (w : World) :
  (0 < timeStep -> - 2 ^ 53 <= currentTime w ->
   duration + timeStep <= 2 ^ 53 ->
   (forall fuel, duration - currentTime w <= Z.of_nat fuel ->
      runSimulation fuel duration timeStep w <> None) /\
   (currentTime w < duration ->
    currentTime (snd (simulateStep timeStep w)) = currentTime w + timeStep /\
    safeInteger (currentTime w + timeStep)) /\
   (forall fuel r w',
      currentTime w < duration ->
      runSimulation fuel duration timeStep w = Some (r, w') ->
      currentTime w < currentTime w' /\ safeInteger (currentTime w')) /\
   (forall fuel u w',
      runSimulation fuel duration timeStep w = Some (Normal u, w') ->
      duration <= currentTime w')) /\
  (timeStep <= 0 -> currentTime w < duration ->
   (forall fuel,
      runSimulation fuel duration timeStep w = None \/
      exists e w', runSimulation fuel duration timeStep w = Some (Throw e, w')) /\
   (waitingQueue w = [] ->
    forall fuel, runSimulation fuel duration timeStep w = None)).
Proof.
  split.
  - intros Hts Hlo Hhi. split; [|split; [|split]].
    + intros fuel Hf. now apply runSimulation_ends.
    + intros Hlt. split; [apply simulateStep_currentTime|].
      unfold safeInteger. lia.
    + intros fuel r w' Hlt R.
      pose proof (runSimulation_clock fuel duration timeStep w r w' Hts Hlt R).
      unfold safeInteger. lia.
    + intros fuel u w'. apply runSimulation_reaches.
  - intros Hts Hlt. split.
    + intros fuel. now apply runSimulation_stuck.
    + intros Hq fuel. now apply runSimulation_forever.
Qed.

Lemma runSimulation_termination_witness :
  runSimulation 40 40 5 emptyRestaurant <> None /\
  runSimulation 8 40 0 emptyRestaurant = None.
Proof.
  split.
  - assert (P : 0 < 5) by lia.
    assert (Lo : - 2 ^ 53 <= currentTime emptyRestaurant) by (simpl; lia).
    assert (Hi : 40 + 5 <= 2 ^ 53) by lia.
    apply (proj1 (proj1 (runSimulation_termination 40 5 emptyRestaurant)
                        P Lo Hi)).
    cbn [emptyRestaurant storeOf currentTime]. lia.
  - assert (P : 0 <= 0) by lia.
    assert (L : currentTime emptyRestaurant < 40) by (simpl; lia).
    now apply (proj2 (proj2 (runSimulation_termination 40 0 emptyRestaurant) P L)).
Defined.

(** ** Eviction, table by table *)



Lemma checkTable_eq t w :
  checkTable t w =
  match getPatrons t w with
  | [] => (Normal tt, w)
  | p :: rest =>
      let adt q := actualDiningTime (personStore w q) in
      if Math_max (adt p) (map adt rest) <=? currentTime w
      then emptyTable t w else (Normal tt, w)
  end.
Proof.
  unfold checkTable, bind, gets. simpl.
  destruct (getPatrons t w); [reflexivity|].
  cbv zeta. now destruct (_ <=? _).
Qed.

Lemma checkTable_cases t w :
  snd (checkTable t w) = w \/ snd (checkTable t w) = snd (emptyTable t w).
Proof.
  rewrite checkTable_eq. destruct (getPatrons t w); [now left|].
  cbv zeta. destruct (_ <=? _); [now right | now left].
Qed.

Section GroupDeparture.
(** The table looked at, its occupants and the clock when the eviction
    phase starts ([w0]). *)
Variable w0 : World.
Variable t : TableRef.

Lemma emptyTable_untouched t' w :
  t' <> t -> untouched w0 t w -> untouched w0 t (snd (emptyTable t' w)).
Proof.
  intros N (A & B & C & D & E).
  destruct (emptyTable_world t' w) as (_ & HN & HT & _ & HP).
  cbv zeta in *. unfold untouched.
  rewrite emptyTable_getPatrons by assumption.
  rewrite emptyTable_currentTime, HN, HT.
  apply Nat.eqb_neq in N. rewrite Nat.eqb_sym in N. rewrite N.
  repeat split; auto.
  - intros q Hq. rewrite HP, leaveAll_other; rewrite (C q Hq); auto.
    intros X. inversion X. apply Nat.eqb_neq in N. congruence.
  - intros q. rewrite HP, leaveAll_actualDiningTime. apply E.
Qed.

Lemma emptyTable_emptied t' w :
  emptied w0 t w -> emptied w0 t (snd (emptyTable t' w)).
Proof.
  intros (A & B & C).
  destruct (emptyTable_world t' w) as (_ & HN & HT & _ & HP).
  cbv zeta in *. unfold emptied.
  rewrite emptyTable_getPatrons by assumption.
  rewrite HN, HT. repeat split.
  - destruct (Nat.eqb t t'); cbn [patrons]; lia.
  - now destruct (Nat.eqb t t').
  - intros q Hq. rewrite HP, leaveAll_other; rewrite (C q Hq); auto.
    discriminate.
Qed.

Lemma emptyTable_self w : untouched w0 t w -> emptied w0 t (snd (emptyTable t w)).
Proof.
  intros (A & B & C & D & E).
  destruct (emptyTable_world t w) as (_ & HN & HT & _ & HP).
  cbv zeta in *. unfold emptied.
  rewrite emptyTable_getPatrons by assumption.
  rewrite HN, HT, Nat.eqb_refl. cbn [patrons]. repeat split; [lia|].
  intros q Hq. rewrite HP. apply leaveAll_listed; [|now apply C].
  rewrite B. exact (proj1 Hq).
Qed.

Lemma checkTable_emptied t' w : emptied w0 t w -> emptied w0 t (snd (checkTable t' w)).
Proof.
  intros H. destruct (checkTable_cases t' w) as [-> | ->];
    [assumption | now apply emptyTable_emptied].
Qed.

Lemma checkTable_other t' w :
  t' <> t -> untouched w0 t w -> untouched w0 t (snd (checkTable t' w)).
Proof.
  intros N H. destruct (checkTable_cases t' w) as [-> | ->];
    [assumption | now apply emptyTable_untouched].
Qed.

Variable p : PersonRef.
Variable rest : list PersonRef.
Hypothesis occupants : getPatrons t w0 = p :: rest.

Let adt (q : PersonRef) : Z := actualDiningTime (personStore w0 q).
Let maxDiningTime : Z := Math_max (adt p) (map adt rest).

Lemma checkTable_self w :
  untouched w0 t w ->
  snd (checkTable t w) =
  if maxDiningTime <=? currentTime w0 then snd (emptyTable t w) else w.
Proof.
  intros (A & B & C & D & E). rewrite checkTable_eq, B, occupants. cbv zeta.
  rewrite D, E.
  assert (M : map (fun q => actualDiningTime (personStore w q)) rest
              = map adt rest)
    by (apply map_ext; intros q; apply E).
  rewrite M. fold (adt p). fold maxDiningTime.
  now destruct (maxDiningTime <=? currentTime w0).
Qed.


(** Due: the first visit of the table empties it, and it stays empty. *)
Lemma forOf_checkTable_due l w :
  maxDiningTime <= currentTime w0 ->
  (untouched w0 t w -> In t l -> emptied w0 t (snd (forOf checkTable l w))) /\
  (emptied w0 t w -> emptied w0 t (snd (forOf checkTable l w))).
Proof.
  intros Hle. revert w. induction l as [|t' l IH]; intros w.
  - split; [intros _ [] | auto].
  - simpl. unfold bind.
    pose proof (checkTable_normal t' w) as Hn.
    destruct (checkTable t' w) as [[[]|e] w1] eqn:Ec; simpl in Hn;
      [clear Hn | discriminate].
    assert (E1 : w1 = snd (checkTable t' w)) by now rewrite Ec.
    split.
    + intros Hu Hin. destruct (Nat.eq_dec t' t) as [->|N].
      * apply (proj2 (IH w1)). rewrite E1, checkTable_self by assumption.
        destruct (Z.leb_spec maxDiningTime (currentTime w0)); [|lia].
        now apply emptyTable_self.
      * destruct Hin as [->|Hin]; [contradiction|].
        apply (proj1 (IH w1)); [|assumption].
        rewrite E1. now apply checkTable_other.
    + intros He. apply (proj2 (IH w1)). rewrite E1.
      now apply checkTable_emptied.
Qed.
End GroupDeparture.

(** The table of the two guests who dine 30 and 50: the step from 30 to 40
    leaves both seated, the step from 40 to 50 sends both away. *)
Example group_departure_at_40 :
  let w' := snd (simulateStep 10 (twoDiners 30)) in
  currentTime w' = 40 /\ getPatrons 0%nat w' = [0; 1]%nat /\
  sitting_at_table (personStore w' 0%nat) = Some 0%nat /\
  sitting_at_table (personStore w' 1%nat) = Some 0%nat.
Proof. repeat split. Qed.

Example group_departure_at_50 :
  let w' := snd (simulateStep 10 (twoDiners 40)) in
  currentTime w' = 50 /\ getPatrons 0%nat w' = [] /\
  sitting_at_table (personStore w' 0%nat) = None /\
  sitting_at_table (personStore w' 1%nat) = None.
Proof. repeat split. Qed.

(** ** The admission loop *)

Lemma seatWaiting_cons head rest w :
  seatWaiting (head :: rest) w =
  match findAvailableTable (getSize head w) w with
  | Some _ =>
      match seatParty head (set_waitingQueue rest w) with
      | (Normal _, w1) => seatWaiting rest w1
      | (Throw e, w1) => (Throw e, w1)
      end
  | None => (Normal tt, w)
  end.
Proof.
  simpl. unfold bind, gets, modify.
  destruct (findAvailableTable (getSize head w) w); reflexivity.
Qed.

Lemma seatWaiting_fifo queue w :
  waitingQueue w = queue ->
  exists seated,
    fifoAdmission w seated (seatWaiting queue w) /\
    queue = seated ++ waitingQueue (snd (seatWaiting queue w)) /\
    (fst (seatWaiting queue w) = Normal tt ->
     headBlocked (snd (seatWaiting queue w))).
Proof.
  revert w. induction queue as [|head rest IH]; intros w Hq.
  - exists []. simpl. repeat split; auto.
    + now apply fifo_nobody.
    + intros _. unfold headBlocked. now rewrite Hq.
  - rewrite seatWaiting_cons.
    destruct (findAvailableTable (getSize head w) w) as [t|] eqn:F.
    + pose proof (seatParty_waitingQueue head (set_waitingQueue rest w)) as Q.
      destruct (seatParty head (set_waitingQueue rest w)) as [[b|e] w1] eqn:S;
        simpl in Q.
      * destruct (IH w1 Q) as (seated & A & B & C).
        exists (head :: seated). repeat split; auto.
        -- now apply (fifo_seated w head rest t b w1).
        -- simpl. now rewrite <- B.
      * exists [head]. simpl. repeat split.
        -- now apply (fifo_thrown w head rest t).
        -- now rewrite Q.
        -- discriminate.
    + exists []. simpl. repeat split; auto.
      * now apply (fifo_blocked w head rest).
      * intros _. unfold headBlocked. now rewrite Hq, F.
Qed.

(** The loop written by recursion on the queue is the loop that reads the
    queue of the store at every iteration. *)
Lemma seatWaiting_queue nextParty rest t w :
  waitingQueue w = nextParty :: rest ->
  findAvailableTable (getSize nextParty w) w = Some t ->
  admitWaitingParties w =
  (seatParty nextParty ;; admitWaitingParties) (set_waitingQueue rest w).
Proof.
  intros Hq F.
  assert (E : admitWaitingParties w = seatWaiting (nextParty :: rest) w)
    by (unfold admitWaitingParties, bind, gets; now rewrite Hq).
  rewrite E, seatWaiting_cons, F. unfold bind.
  pose proof (seatParty_waitingQueue nextParty (set_waitingQueue rest w)) as Q.
  destruct (seatParty nextParty (set_waitingQueue rest w)) as [[b|e] w1];
    simpl in Q; [|reflexivity].
  unfold admitWaitingParties, bind, gets. now rewrite Q.
Qed.

(** The queue [A (four people); B (two people)] with the table of two
    free and the table of four taken: a table is available for B, none for
    A, and the phase seats nobody and leaves both in the queue. *)
Example blockedQueue_stays :
  findAvailableTable (getSize (mkParty 3) blockedQueue) blockedQueue
    = Some 0%nat /\
  findAvailableTable (getSize (mkParty 2) blockedQueue) blockedQueue = None /\
  admitWaitingParties blockedQueue = (Normal tt, blockedQueue).
Proof. repeat split. Qed.

(** Same queue in the other order: B is seated at the table of two, then A
    blocks. *)
Example smallPartyFirst :
  let w := set_waitingQueue [mkParty 3; mkParty 2] blockedQueue in
  let w' := snd (admitWaitingParties w) in
  waitingQueue w' = [mkParty 2] /\ getPatrons 0%nat w' = [4; 5]%nat /\
  sitting_at_table (personStore w' 4%nat) = Some 0%nat /\
  sitting_at_table (personStore w' 0%nat) = None.
Proof. repeat split. Qed.

(** * Further properties of the classes *)

(** ** Person.sitDown and Person.leaveTable *)

(** What a [sitDown] that returns has done. *)
Lemma sitDown_normal this table w u w' :
  sitDown this table w = (Normal u, w') ->
  sitting_at_table (personStore w this) = None /\
  Z.of_nat (length (getPatrons table w)) < getCapacity table w /\
  sitting_at_table (personStore w' this) = Some table /\
  getPatrons table w' = getPatrons table w ++ [this] /\
  (forall q, q <> this -> personStore w' q = personStore w q) /\
  (forall a, a <> patrons (tableStore w table) ->
             arrayStore w' a = arrayStore w a) /\
  tableStore w' = tableStore w /\ nextArray w' = nextArray w /\
  tables w' = tables w /\ waitingQueue w' = waitingQueue w /\
  currentTime w' = currentTime w.
Proof.
  rewrite sitDown_eq.
  destruct (sitting_at_table (personStore w this)) as [t'|] eqn:S;
    [discriminate|].
  destruct (Z.ltb_spec (Z.of_nat (length (getPatrons table w)))
                       (getCapacity table w)) as [Hlt|Hge]; [|discriminate].
  intros E. inversion E; subst w'. clear E.
  unfold getPatrons. unfold_setters.
  rewrite !upd_same. cbn [sitting_at_table].
  repeat split; auto.
  - intros q Hq. now rewrite upd_other.
  - intros a Ha. now rewrite upd_other.
Qed.

(** [sitDown] either throws and leaves the store as it was, or seats the
    person.  It throws "already sitting" whenever the person sits
    somewhere, the same table included, and "full" when the person sits
    nowhere and the table has no room.  When it returns, the person was not
    seated, is now seated at the table and is the last of its patrons;
    nobody else and no other array has changed. *)
Theorem sitDown_outcome (this : PersonRef) (table : TableRef) (w : World) :
  match sitDown this table w with
  | (Throw e, w') =>
      w' = w /\
      ((e = AlreadySitting this /\
        sitting_at_table (personStore w this) <> None) \/
       (e = TableIsFull table /\
        sitting_at_table (personStore w this) = None /\
        getCapacity table w <= Z.of_nat (length (getPatrons table w))))
  | (Normal _, w') =>
      sitting_at_table (personStore w this) = None /\
      Z.of_nat (length (getPatrons table w)) < getCapacity table w /\
      sitting_at_table (personStore w' this) = Some table /\
      getPatrons table w' = getPatrons table w ++ [this] /\
      (forall q, q <> this -> personStore w' q = personStore w q) /\
      (forall a, a <> patrons (tableStore w table) ->
                 arrayStore w' a = arrayStore w a) /\
      tableStore w' = tableStore w /\ waitingQueue w' = waitingQueue w /\
      currentTime w' = currentTime w
  end.
Proof.
  destruct (sitDown this table w) as [[u|e] w'] eqn:E.
  - destruct (sitDown_normal this table w u w' E)
      as (A & B & C & D & F & G & H & _ & _ & I & J).
    repeat split; assumption.
  - rewrite sitDown_eq in E.
    destruct (sitting_at_table (personStore w this)) as [t'|] eqn:S.
    + inversion E; subst. split; [reflexivity|]. left.
      split; [reflexivity | discriminate].
    + destruct (Z.ltb_spec (Z.of_nat (length (getPatrons table w)))
                           (getCapacity table w)) as [Hlt|Hge];
        [discriminate|].
      inversion E; subst. split; [reflexivity|]. right. repeat split; auto.
Qed.

Lemma leaveAll_unlisted ps table w q :
  ~ In q ps ->
  sitting_at_table (personStore (leaveAll ps table w) q) =
  sitting_at_table (personStore w q).
Proof.
  revert w. induction ps as [|p ps IH]; intros w HIn; simpl; [reflexivity|].
  rewrite IH by (intros H; apply HIn; now right).
  rewrite leaveTable_sitting.
  destruct (Nat.eqb_spec q p) as [->|N]; [|reflexivity].
  exfalso. apply HIn. now left.
Qed.

(** [leaveTable] is one side only: when a person who has just sat down at a
    table leaves it, the person sits nowhere, and the table still lists
    them as its last patron. *)
Theorem sitDown_then_leaveTable (this : PersonRef) (table : TableRef)
    (w w1 : World) :
  sitDown this table w = (Normal tt, w1) ->
  fst (leaveTable this table w1) = Normal tt /\
  let w2 := snd (leaveTable this table w1) in
  sitting_at_table (personStore w2 this) = None /\
  getPatrons table w2 = getPatrons table w ++ [this].
Proof.
  intros E.
  destruct (sitDown_normal this table w tt w1 E) as (_ & _ & S & G & _).
  cbv zeta. unfold leaveTable.
  apply option_eqb_true in S. rewrite S. simpl.
  split; [reflexivity|]. split.
  - now rewrite upd_same.
  - exact G.
Qed.

Lemma sitDown_then_leaveTable_witness :
  let w1 := snd (sitDown 0%nat 0%nat openingNight) in
  let w2 := snd (leaveTable 0%nat 0%nat w1) in
  sitting_at_table (personStore w2 0%nat) = None /\
  getPatrons 0%nat w2 = [0%nat].
Proof.
  exact (proj2 (sitDown_then_leaveTable 0%nat 0%nat openingNight
                  (snd (sitDown 0%nat 0%nat openingNight)) eq_refl)).
Defined.

(** ** Table.emptyTable *)

(** [emptyTable] never throws and leaves the table with no patron.  It does
    not clear the old array, it puts a new one in its place: every array
    that existed keeps its contents.  Of the persons, those listed by the
    table and seated at it now sit nowhere; everybody else, also somebody
    seated at the table without being listed, is as before. *)
Theorem emptyTable_effect (this : TableRef) (w : World) :
  let w' := snd (emptyTable this w) in
  fst (emptyTable this w) = Normal tt /\
  getPatrons this w' = [] /\
  (forall a, a <> nextArray w -> arrayStore w' a = arrayStore w a) /\
  (forall q, In q (getPatrons this w) ->
     sitting_at_table (personStore w q) = Some this ->
     sitting_at_table (personStore w' q) = None) /\
  (forall q, sitting_at_table (personStore w q) <> Some this ->
     sitting_at_table (personStore w' q) = sitting_at_table (personStore w q)) /\
  (forall q, ~ In q (getPatrons this w) ->
     sitting_at_table (personStore w' q) = sitting_at_table (personStore w q)).
Proof.
  destruct (emptyTable_world this w) as (_ & _ & HT & HA & HP).
  cbv zeta in *.
  split; [now rewrite emptyTable_eq|].
  split; [|split; [|split; [|split]]].
  - unfold getPatrons. rewrite HT, HA, Nat.eqb_refl. cbn [patrons].
    now rewrite Nat.eqb_refl.
  - intros a Ha. rewrite HA. apply Nat.eqb_neq in Ha. now rewrite Ha.
  - intros q Hq Hs. rewrite HP. now apply leaveAll_listed.
  - intros q Hs. rewrite HP. now apply leaveAll_other.
  - intros q Hq. rewrite HP. now apply leaveAll_unlisted.
Qed.

(** ** Restaurant.seatParty *)

Lemma sitDown_throw this table w e w' :
  sitDown this table w = (Throw e, w') ->
  w' = w /\
  ((e = AlreadySitting this /\ sitting_at_table (personStore w this) <> None) \/
   (e = TableIsFull table /\
    getCapacity table w <= Z.of_nat (length (getPatrons table w)))).
Proof.
  rewrite sitDown_eq.
  destruct (sitting_at_table (personStore w this)) as [t'|] eqn:S.
  - intros E. inversion E; subst. split; [reflexivity|]. left.
    split; [reflexivity | discriminate].
  - destruct (Z.ltb_spec (Z.of_nat (length (getPatrons table w)))
                         (getCapacity table w)) as [Hlt|Hge]; [discriminate|].
    intros E. inversion E; subst. split; [reflexivity|]. now right.
Qed.

Lemma forOf_cons {A} (body : A -> M unit) x l w :
  forOf body (x :: l) w =
  match body x w with
  | (Normal _, w1) => forOf body l w1
  | (Throw e, w1) => (Throw e, w1)
  end.
Proof. reflexivity. Qed.

Lemma seatParty_eq party w :
  seatParty party w =
  match findAvailableTable (getSize party w) w with
  | None => (Normal false, w)
  | Some t =>
      match forOf (fun person => sitDown person t) (getMembers party w) w with
      | (Normal _, w1) => (Normal true, w1)
      | (Throw e, w1) => (Throw e, w1)
      end
  end.
Proof.
  unfold seatParty, bind, gets, ret.
  destruct (findAvailableTable (getSize party w) w); reflexivity.
Qed.

(** The loop of [seatParty], when it runs to its end. *)
Lemma forOf_sitDown_normal t ms :
  forall w u w',
    forOf (fun person => sitDown person t) ms w = (Normal u, w') ->
    NoDup ms /\
    (forall p, In p ms -> sitting_at_table (personStore w p) = None) /\
    getPatrons t w' = getPatrons t w ++ ms /\
    (forall p, In p ms -> sitting_at_table (personStore w' p) = Some t) /\
    (forall q, ~ In q ms -> personStore w' q = personStore w q) /\
    (forall a, a <> patrons (tableStore w t) ->
               arrayStore w' a = arrayStore w a) /\
    tableStore w' = tableStore w /\ nextArray w' = nextArray w /\
    tables w' = tables w /\ waitingQueue w' = waitingQueue w /\
    currentTime w' = currentTime w.
Proof.
  induction ms as [|m ms IH]; intros w u w' E.
  - simpl in E. inversion E; subst w'. rewrite app_nil_r.
    repeat split; auto; try (intros p []). constructor.
  - rewrite forOf_cons in E.
    destruct (sitDown m t w) as [[u1|e] w1] eqn:E1; [|discriminate].
    destruct (sitDown_normal m t w u1 w1 E1)
      as (S0 & _ & S1 & G1 & P1 & A1 & T1 & N1 & L1 & Q1 & C1).
    destruct (IH w1 u w' E)
      as (ND & S2 & G2 & S3 & P2 & A2 & T2 & N2 & L2 & Q2 & C2).
    assert (Hm : ~ In m ms).
    { intros Hin. specialize (S2 m Hin). congruence. }
    repeat split; try congruence.
    + now constructor.
    + intros p [<-|Hp]; [exact S0|].
      rewrite <- P1; [now apply S2|]. intros ->. contradiction.
    + rewrite G2, G1, <- app_assoc. reflexivity.
    + intros p [<-|Hp]; [|now apply S3].
      rewrite P2 by assumption. exact S1.
    + intros q Hq. rewrite P2, P1; auto.
      * intros ->. apply Hq. now left.
      * intros Hin. apply Hq. now right.
    + intros a Ha. rewrite A2, A1; auto. now rewrite T1.
Qed.

(** The loop of [seatParty] runs to its end when the members are distinct,
    none of them sits and the table has room for all. *)
Lemma forOf_sitDown_runs t ms :
  forall w,
    NoDup ms ->
    (forall p, In p ms -> sitting_at_table (personStore w p) = None) ->
    Z.of_nat (length (getPatrons t w) + length ms) <= getCapacity t w ->
    exists w', forOf (fun person => sitDown person t) ms w = (Normal tt, w').
Proof.
  induction ms as [|m ms IH]; intros w ND S R.
  - exists w. reflexivity.
  - rewrite forOf_cons.
    destruct (sitDown m t w) as [[[]|e] w1] eqn:E1.
    + destruct (sitDown_normal m t w tt w1 E1)
        as (_ & _ & _ & G1 & P1 & _ & T1 & _).
      inversion ND; subst. apply IH; auto.
      * intros p Hp. rewrite P1; [apply S; now right|].
        intros ->. contradiction.
      * unfold getCapacity. rewrite G1, T1, length_app. simpl in *.
        unfold getCapacity in R. lia.
    + exfalso. destruct (sitDown_throw m t w e w1 E1) as (_ & [[_ H]|[_ H]]).
      * apply H, S. now left.
      * simpl in R. lia.
Qed.

(** The loop of [seatParty], when it throws: the table has room for all, so
    it is a member who sits already, or comes twice. *)
Lemma forOf_sitDown_throws t ms :
  forall w e w',
    Z.of_nat (length (getPatrons t w) + length ms) <= getCapacity t w ->
    forOf (fun person => sitDown person t) ms w = (Throw e, w') ->
    exists p, In p ms /\ e = AlreadySitting p.
Proof.
  induction ms as [|m ms IH]; intros w e w' R E.
  - discriminate.
  - rewrite forOf_cons in E.
    destruct (sitDown m t w) as [[u1|e1] w1] eqn:E1.
    + destruct (sitDown_normal m t w u1 w1 E1)
        as (_ & _ & _ & G1 & _ & _ & T1 & _).
      destruct (IH w1 e w') as (p & Hp & He); auto.
      * unfold getCapacity. rewrite G1, T1, length_app. simpl in *.
        unfold getCapacity in R. lia.
      * exists p. split; [now right | assumption].
    + inversion E; subst.
      destruct (sitDown_throw m t w e w' E1) as (_ & [[-> _]|[_ H]]).
      * exists m. split; [now left | reflexivity].
      * simpl in R. lia.
Qed.

Lemma findAvailableTable_room partySize w t :
  findAvailableTable partySize w = Some t ->
  getPatrons t w = [] /\ partySize <= getCapacity t w.
Proof.
  unfold findAvailableTable. intros F. apply find_some in F.
  now apply available_true.
Qed.

Lemma forOf_app {A} (body : A -> M unit) l1 l2 w :
  forOf body (l1 ++ l2) w =
  match forOf body l1 w with
  | (Normal _, w1) => forOf body l2 w1
  | (Throw e, w1) => (Throw e, w1)
  end.
Proof.
  revert w. induction l1 as [|x l1 IH]; intros w; [reflexivity|].
  simpl app. rewrite !forOf_cons.
  destruct (body x w) as [[u|e] w1]; [apply IH | reflexivity].
Qed.

(** The three ways [seatParty] ends.  It returns false, with the store as
    it was, exactly when no table is available.  It returns true only when
    a table is available and the members are distinct persons none of whom
    was seated.  It throws only "already sitting", for one of the members:
    "full" cannot come out of [seatParty], since the table found is empty
    and large enough. *)
Theorem seatParty_outcome (party : Party) (w : World) :
  match seatParty party w with
  | (Normal false, w') =>
      w' = w /\ findAvailableTable (getSize party w) w = None
  | (Normal true, w') =>
      exists t,
        findAvailableTable (getSize party w) w = Some t /\
        NoDup (getMembers party w) /\
        forall p, In p (getMembers party w) ->
                  sitting_at_table (personStore w p) = None
  | (Throw e, w') =>
      exists t p,
        findAvailableTable (getSize party w) w = Some t /\
        In p (getMembers party w) /\ e = AlreadySitting p
  end.
Proof.
  rewrite seatParty_eq.
  destruct (findAvailableTable (getSize party w) w) as [t|] eqn:F;
    [|now split].
  destruct (findAvailableTable_room _ _ _ F) as [Hempty Hcap].
  destruct (forOf _ (getMembers party w) w) as [[u|e] w1] eqn:E.
  - destruct (forOf_sitDown_normal t _ w u w1 E) as (ND & S & _).
    exists t. auto.
  - destruct (forOf_sitDown_throws t (getMembers party w) w e w1)
      as (p & Hp & He); auto.
    + rewrite Hempty. unfold getSize, getMembers in *. simpl. exact Hcap.
    + exists t, p. auto.
Qed.

(** A party of distinct persons none of whom is seated, for which a table
    is available, is seated whole: [seatParty] returns true, the table
    found lists the members in their order and each member sits at it;
    nobody else has changed, nor any array but that of the table, nor the
    queue or the clock. *)
Theorem seatParty_seats_party (party : Party) (w : World) (t : TableRef) :
  findAvailableTable (getSize party w) w = Some t ->
  NoDup (getMembers party w) ->
  (forall p, In p (getMembers party w) ->
             sitting_at_table (personStore w p) = None) ->
  exists w',
    seatParty party w = (Normal true, w') /\
    getPatrons t w' = getMembers party w /\
    (forall p, In p (getMembers party w) ->
               sitting_at_table (personStore w' p) = Some t) /\
    (forall q, ~ In q (getMembers party w) ->
               personStore w' q = personStore w q) /\
    (forall a, a <> patrons (tableStore w t) ->
               arrayStore w' a = arrayStore w a) /\
    tableStore w' = tableStore w /\ waitingQueue w' = waitingQueue w /\
    currentTime w' = currentTime w.
Proof.
  intros F ND S. rewrite seatParty_eq, F.
  destruct (findAvailableTable_room _ _ _ F) as [Hempty Hcap].
  destruct (forOf_sitDown_runs t (getMembers party w) w ND S) as [w' E].
  { rewrite Hempty. unfold getSize, getMembers in *. simpl. exact Hcap. }
  rewrite E. exists w'.
  destruct (forOf_sitDown_normal t _ w tt w' E)
    as (_ & _ & G & S' & P & A & T & _ & _ & Q & C).
  rewrite Hempty in G. simpl in G.
  repeat split; auto.
Qed.

Lemma seatParty_seats_party_witness :
  exists w',
    seatParty (mkParty 2) openingNight = (Normal true, w') /\
    getPatrons 0%nat w' = [0; 1]%nat.
Proof.
  assert (F : findAvailableTable (getSize (mkParty 2) openingNight) openingNight
              = Some 0%nat) by reflexivity.
  assert (ND : NoDup (getMembers (mkParty 2) openingNight)).
  { simpl. repeat constructor; simpl; intuition discriminate. }
  assert (S : forall p, In p (getMembers (mkParty 2) openingNight) ->
                        sitting_at_table (personStore openingNight p) = None).
  { intros p Hp. simpl in Hp. destruct Hp as [<-|[<-|[]]]; reflexivity. }
  destruct (seatParty_seats_party (mkParty 2) openingNight 0%nat F ND S)
    as (w' & E & G & _).
  exists w'. split; [exact E | exact G].
Defined.

(** [seatParty] is not all or nothing.  When the member [q] sits already,
    or comes a second time in the member list, while the members [pre]
    before it are distinct and unseated, [seatParty] throws "already
    sitting" for [q] and leaves [pre] seated at the table found: the table
    lists them and each of them sits at it. *)
Theorem seatParty_stops_midway (party : Party) (w : World) (t : TableRef)
    (pre post : list PersonRef) (q : PersonRef) :
  findAvailableTable (getSize party w) w = Some t ->
  getMembers party w = pre ++ q :: post ->
  NoDup pre ->
  (forall p, In p pre -> sitting_at_table (personStore w p) = None) ->
  sitting_at_table (personStore w q) <> None \/ In q pre ->
  exists w',
    seatParty party w = (Throw (AlreadySitting q), w') /\
    getPatrons t w' = pre /\
    (forall p, In p pre -> sitting_at_table (personStore w' p) = Some t).
Proof.
  intros F M ND S Hq. rewrite seatParty_eq, F, M, forOf_app.
  destruct (findAvailableTable_room _ _ _ F) as [Hempty Hcap].
  destruct (forOf_sitDown_runs t pre w ND S) as [w1 E].
  { rewrite Hempty. unfold getSize in Hcap. fold (getMembers party w) in Hcap.
    rewrite M, length_app in Hcap. simpl in *. lia. }
  rewrite E.
  destruct (forOf_sitDown_normal t _ w tt w1 E)
    as (_ & _ & G & S' & P & _).
  rewrite Hempty in G. simpl in G.
  assert (Hs : sitting_at_table (personStore w1 q) <> None).
  { destruct (in_dec Nat.eq_dec q pre) as [Hin|Hout].
    - rewrite (S' q Hin). discriminate.
    - rewrite (P q Hout). destruct Hq as [H|H]; [exact H | contradiction]. }
  exists w1. rewrite forOf_cons, sitDown_eq.
  destruct (sitting_at_table (personStore w1 q)); [|contradiction].
  repeat split; auto.
Qed.

Lemma seatParty_stops_midway_witness :
  exists w',
    seatParty (mkParty 1) twiceInParty = (Throw (AlreadySitting 0%nat), w') /\
    getPatrons 0%nat w' = [0%nat].
Proof.
  assert (F : findAvailableTable (getSize (mkParty 1) twiceInParty) twiceInParty
              = Some 0%nat) by reflexivity.
  assert (M : getMembers (mkParty 1) twiceInParty = [0%nat] ++ 0%nat :: [])
    by reflexivity.
  assert (ND : NoDup [0%nat]) by (repeat constructor; intros []).
  assert (S : forall p, In p [0%nat] ->
                        sitting_at_table (personStore twiceInParty p) = None).
  { intros p [<-|[]]. reflexivity. }
  destruct (seatParty_stops_midway (mkParty 1) twiceInParty 0%nat
              [0%nat] [] 0%nat F M ND S (or_intror (or_introl eq_refl)))
    as (w' & E & G & _).
  exists w'. split; [exact E | exact G].
Defined.

(** ** The errors of a step *)

Lemma seatParty_throw party w e w' :
  seatParty party w = (Throw e, w') ->
  exists p, In p (getMembers party w) /\ e = AlreadySitting p.
Proof.
  rewrite seatParty_eq.
  destruct (findAvailableTable (getSize party w) w) as [t|] eqn:F;
    [|discriminate].
  destruct (findAvailableTable_room _ _ _ F) as [Hempty Hcap].
  destruct (forOf _ (getMembers party w) w) as [[u|e1] w1] eqn:E;
    [discriminate|].
  intros X. inversion X; subst.
  apply (forOf_sitDown_throws t (getMembers party w) w e w'); [|exact E].
  rewrite Hempty. unfold getSize, getMembers in *. simpl. exact Hcap.
Qed.

Lemma seatWaiting_throw queue w e w' :
  seatWaiting queue w = (Throw e, w') -> exists p, e = AlreadySitting p.
Proof.
  revert w. induction queue as [|head rest IH]; intros w; [discriminate|].
  rewrite seatWaiting_cons.
  destruct (findAvailableTable (getSize head w) w); [|discriminate].
  destruct (seatParty head (set_waitingQueue rest w)) as [[b|e1] w1] eqn:S.
  - apply IH.
  - intros X. inversion X; subst.
    destruct (seatParty_throw _ _ _ _ S) as (p & _ & ->). eauto.
Qed.

Lemma simulateStep_throw timeStep w e w' :
  simulateStep timeStep w = (Throw e, w') -> exists p, e = AlreadySitting p.
Proof.
  rewrite simulateStep_unfold. unfold admitWaitingParties, bind, gets.
  apply seatWaiting_throw.
Qed.

(** The only error that comes out of a run is "already sitting": "full",
    the other error of [sitDown], is never thrown by [simulateStep] or
    [runSimulation], for any tables, queue and time step. *)
Theorem runSimulation_only_already_sitting (fuel : nat) (duration timeStep : Z)
    (w : World) (e : Error) (w' : World) :
  runSimulation fuel duration timeStep w = Some (Throw e, w') ->
  exists p, e = AlreadySitting p.
Proof.
  revert w. induction fuel as [|fuel IH]; intros w; simpl.
  - destruct (_ <? _); discriminate.
  - destruct (_ <? _); [|discriminate].
    destruct (simulateStep timeStep w) as [[u|e1] w1] eqn:S.
    + apply IH.
    + intros X. inversion X; subst. now apply (simulateStep_throw _ _ _ _ S).
Qed.

Lemma runSimulation_only_already_sitting_witness :
  exists p, AlreadySitting 0%nat = AlreadySitting p.
Proof.
  apply (runSimulation_only_already_sitting 1 1 0 twiceInParty
           (AlreadySitting 0%nat)
           (snd (simulateStep 0 twiceInParty))).
  reflexivity.
Defined.

(** ** What no operation changes *)

Lemma samePerson_refl a : samePerson a a.
Proof. now repeat split. Qed.

Lemma samePerson_trans a b c : samePerson a b -> samePerson b c -> samePerson a c.
Proof.
  intros (A1 & A2 & A3 & A4 & A5) (B1 & B2 & B3 & B4 & B5).
  repeat split; congruence.
Qed.

Lemma leaveTable_samePerson p table w q :
  samePerson (personStore (snd (leaveTable p table w)) q) (personStore w q).
Proof.
  unfold leaveTable. destruct (option_eqb _ _); simpl;
    [|apply samePerson_refl].
  destruct (Nat.eq_dec q p) as [->|N].
  - rewrite upd_same. now repeat split.
  - rewrite upd_other by assumption. apply samePerson_refl.
Qed.

Lemma leaveAll_samePerson ps table w q :
  samePerson (personStore (leaveAll ps table w) q) (personStore w q).
Proof.
  revert w. induction ps as [|p ps IH]; intros w; simpl;
    [apply samePerson_refl|].
  eapply samePerson_trans; [apply IH | apply leaveTable_samePerson].
Qed.

Lemma sitDown_sameIdentities w0 p t w :
  sameIdentities w0 w -> sameIdentities w0 (snd (sitDown p t w)).
Proof.
  intros (HT & HS & HP).
  destruct (sitDown p t w) as [[u|e] w'] eqn:E; simpl.
  - destruct (sitDown_normal p t w u w' E)
      as (_ & _ & _ & _ & P1 & _ & T1 & _ & L1 & _).
    split; [congruence|]. split; [now rewrite T1|].
    intros q. destruct (Nat.eq_dec q p) as [->|N].
    + eapply samePerson_trans; [|apply HP].
      rewrite sitDown_eq in E.
      destruct (sitting_at_table (personStore w p)); [discriminate|].
      destruct (_ <? _); [|discriminate].
      inversion E; subst w'. unfold_setters. rewrite upd_same.
      now repeat split.
    + rewrite P1 by assumption. apply HP.
  - destruct (sitDown_throw p t w e w' E) as [-> _].
    exact (conj HT (conj HS HP)).
Qed.

Lemma emptyTable_sameIdentities w0 t w :
  sameIdentities w0 w -> sameIdentities w0 (snd (emptyTable t w)).
Proof.
  intros (HT & HS & HP).
  destruct (emptyTable_world t w) as (L & _ & T & _ & P). cbv zeta in *.
  split; [congruence|]. split.
  - intros t'. rewrite T. destruct (Nat.eqb_spec t' t) as [->|N]; [|apply HS].
    destruct (HS t) as [A B]. split; cbn [table_id capacity]; assumption.
  - intros q. rewrite P.
    eapply samePerson_trans; [apply leaveAll_samePerson | apply HP].
Qed.

(** No operation of the restaurant changes the list of tables, the
    identifier or the capacity of any table, or, of any person, the
    identifier, name, age, dining time range or actual dining time: a
    person's dining time is never drawn again, and the state after any run
    has the tables and persons it started with. *)
Theorem identities_kept (w : World) :
  (forall party, sameIdentities w (snd (seatParty party w))) /\
  (forall party, sameIdentities w (snd (addToWaitingQueue party w))) /\
  (forall timeStep, sameIdentities w (snd (simulateStep timeStep w))) /\
  (forall fuel duration timeStep r w',
     runSimulation fuel duration timeStep w = Some (r, w') ->
     sameIdentities w w').
Proof.
  assert (H : sameIdentities w w).
  { split; [reflexivity|]. split; [now split|]. intros q. apply samePerson_refl. }
  assert (A : forall w1, sameIdentities w w1 -> tables w1 = tables w)
    by now intros w1 [X _].
  assert (B : forall p t w1, sameIdentities w w1 -> In t (tables w) ->
                             sameIdentities w (snd (sitDown p t w1)))
    by (intros; now apply sitDown_sameIdentities).
  assert (C : forall t w1, sameIdentities w w1 -> In t (tables w) ->
                           sameIdentities w (snd (emptyTable t w1)))
    by (intros; now apply emptyTable_sameIdentities).
  assert (D : forall q w1, sameIdentities w w1 ->
                           sameIdentities w (set_waitingQueue q w1))
    by (intros q w1 X; exact X).
  assert (E : forall c w1, sameIdentities w w1 ->
                           sameIdentities w (set_currentTime c w1))
    by (intros c w1 X; exact X).
  split; [|split; [|split]].
  - intros party.
    now apply (seatParty_inv (tables w) (sameIdentities w) A B).
  - intros party. exact H.
  - intros timeStep.
    now apply (simulateStep_inv (tables w) (sameIdentities w) A B C D E).
  - intros fuel duration timeStep r w' R.
    now apply (runSimulation_inv (tables w) (sameIdentities w) A B C D E
                 fuel duration timeStep w r w').
Qed.

(** ** Steps and runs *)




(** A run on whole numbers within the range of exact sums stops at the
    first step at or past the duration: with a positive time step, a clock
    of at least -2^53 below [duration] at the start and
    [duration + timeStep <= 2^53], the clock of a run that returns is at
    least [duration], less than [duration + timeStep], and a positive
    whole number of time steps after the clock at the start. *)
Theorem runSimulation_final_time (fuel : nat) (duration timeStep : Z)
    (w : World) (u : unit) (w' : World) :
  0 < timeStep ->
  - 2 ^ 53 <= currentTime w ->
  duration + timeStep <= 2 ^ 53 ->
  currentTime w < duration ->
  runSimulation fuel duration timeStep w = Some (Normal u, w') ->
  duration <= currentTime w' < duration + timeStep /\
  safeInteger (currentTime w') /\
  exists steps : nat,
    (0 < steps)%nat /\
    currentTime w' = currentTime w + Z.of_nat steps * timeStep.
Proof.
  intros Hts Hlo Hhi. revert w Hlo.
  induction fuel as [|fuel IH]; intros w Hlo Hlt; simpl.
  - destruct (Z.ltb_spec (currentTime w) duration); [discriminate | lia].
  - destruct (Z.ltb_spec (currentTime w) duration); [|lia].
    pose proof (simulateStep_currentTime timeStep w) as Ht.
    destruct (simulateStep timeStep w) as [[v|e] w1]; simpl in Ht;
      [|discriminate].
    destruct (Z.lt_ge_cases (currentTime w1) duration) as [Hlt1|Hge1].
    + intros R. destruct (IH w1) as (B & Sf & k & Hk & E); auto; [lia|].
      split; [exact B|]. split; [exact Sf|]. exists (S k). split; [lia|].
      rewrite E, Ht. lia.
    + intros R.
      assert (E : w' = w1).
      { destruct fuel; simpl in R;
          destruct (Z.ltb_spec (currentTime w1) duration); try lia;
          now inversion R. }
      subst w'. split; [lia|]. split; [unfold safeInteger; lia|].
      exists 1%nat. split; [lia|]. lia.
Qed.

Lemma runSimulation_final_time_witness :
  let w' := snd (simulateStep 7 (twoDiners 0)) in
  10 <= currentTime (snd (simulateStep 7 w')) < 10 + 7.
Proof.
  assert (P : 0 < 7) by lia.
  assert (Lo : - 2 ^ 53 <= currentTime (twoDiners 0)) by (simpl; lia).
  assert (Hi : 10 + 7 <= 2 ^ 53) by lia.
  assert (L : currentTime (twoDiners 0) < 10) by (simpl; lia).
  exact (proj1 (runSimulation_final_time 5 10 7 (twoDiners 0) tt
                  (snd (simulateStep 7 (snd (simulateStep 7 (twoDiners 0)))))
                  P Lo Hi L eq_refl)).
Defined.

(** More steps allowed do not change the outcome of a run. *)
Lemma runSimulation_more_fuel fuel extra duration timeStep w r :
  runSimulation fuel duration timeStep w = Some r ->
  runSimulation (fuel + extra) duration timeStep w = Some r.
Proof.
  revert w. induction fuel as [|fuel IH]; intros w; simpl.
  - destruct (currentTime w <? duration) eqn:L; [discriminate|].
    intros E. destruct extra; simpl; now rewrite L.
  - destruct (currentTime w <? duration); [|auto].
    destruct (simulateStep timeStep w) as [[v|e] w1]; [apply IH | auto].
Qed.

(** Running to a first duration and then on to a later one is running to
    the later one: when the run to [d1] returns in [w1] and the run from
    [w1] to [d2 >= d1] ends as [r], the run from the start to [d2] ends as
    [r]. *)
Theorem runSimulation_in_two_legs (f1 f2 : nat) (d1 d2 timeStep : Z)
    (w : World) (u : unit) (w1 : World) (r : Completion unit * World) :
  d1 <= d2 ->
  runSimulation f1 d1 timeStep w = Some (Normal u, w1) ->
  runSimulation f2 d2 timeStep w1 = Some r ->
  runSimulation (f1 + f2) d2 timeStep w = Some r.
Proof.
  intros Hd. revert w. induction f1 as [|f1 IH]; intros w; simpl.
  - destruct (Z.ltb_spec (currentTime w) d1); [discriminate|].
    intros E. inversion E; subst. auto.
  - destruct (Z.ltb_spec (currentTime w) d1) as [Hlt|Hge].
    + destruct (Z.ltb_spec (currentTime w) d2); [|lia].
      destruct (simulateStep timeStep w) as [[v|e] w2];
        [apply IH | discriminate].
    + intros E. inversion E; subst. intros R.
      change (runSimulation (S (f1 + f2)) d2 timeStep w1 = Some r).
      replace (S (f1 + f2)) with (f2 + S f1)%nat by lia.
      now apply runSimulation_more_fuel.
Qed.

Lemma runSimulation_in_two_legs_witness :
  exists r,
    runSimulation 3 50 10
      (snd (simulateStep 10 (snd (simulateStep 10 (twoDiners 0))))) = Some r /\
    runSimulation (3 + 3) 50 10 (twoDiners 0) = Some r.
Proof.
  assert (D : 20 <= 50) by lia.
  eexists. split; [reflexivity|].
  apply (runSimulation_in_two_legs 3 3 20 50 10 (twoDiners 0) tt
           (snd (simulateStep 10 (snd (simulateStep 10 (twoDiners 0)))))
           _ D eq_refl).
  reflexivity.
Defined.

(** ** A queue that seats without an error *)

Lemma NoDup_app_disjoint {A} (l1 l2 : list A) a :
  NoDup (l1 ++ l2) -> In a l1 -> ~ In a l2.
Proof.
  induction l1 as [|x l1 IH]; simpl; intros ND H1 H2; [destruct H1|].
  inversion ND; subst. destruct H1 as [->|H1].
  - apply H3. apply in_or_app. now right.
  - now apply IH.
Qed.

Lemma waitingPatrons_same w w' :
  waitingQueue w' = waitingQueue w ->
  (forall party, In party (waitingQueue w) ->
     arrayStore w' (members party) = arrayStore w (members party)) ->
  waitingPatrons w' = waitingPatrons w.
Proof.
  intros Q H. unfold waitingPatrons. rewrite Q. f_equal.
  apply map_ext_in. intros party Hp. unfold getMembers. now apply H.
Qed.

Lemma emptyTable_queueOK t w : queueOK w -> queueOK (snd (emptyTable t w)).
Proof.
  intros (H1 & H2 & H3).
  destruct (emptyTable_world t w) as (L & N & T & A & P). cbv zeta in *.
  pose proof (emptyTable_waitingQueue t w) as Q.
  assert (W : waitingPatrons (snd (emptyTable t w)) = waitingPatrons w).
  { apply waitingPatrons_same; [exact Q|].
    intros party Hp. rewrite A.
    destruct (Nat.eqb_spec (members party) (nextArray w)); [|reflexivity].
    destruct (H1 party Hp). lia. }
  unfold queueOK. rewrite W, Q, L, N. split; [|split].
  - intros party Hp. destruct (H1 party Hp) as [Ha Hb]. split; [lia|].
    intros t' Ht'. rewrite T.
    destruct (Nat.eqb t' t); cbn [patrons]; [lia | now apply Hb].
  - exact H2.
  - intros p Hp. rewrite P, leaveAll_other; rewrite (H3 p Hp);
      [reflexivity | discriminate].
Qed.

Lemma evictDuePatrons_queueOK w : queueOK w -> queueOK (snd (evictDuePatrons w)).
Proof.
  intros H.
  apply (evictDuePatrons_inv (tables w)
           (fun w0 => tables w0 = tables w /\ queueOK w0)).
  - now intros w0 [X _].
  - intros t w0 [X Y] _. split;
      [now rewrite emptyTable_tables | now apply emptyTable_queueOK].
  - now split.
Qed.

Lemma seatWaiting_queueOK queue :
  forall w,
    waitingQueue w = queue -> queueOK w ->
    fst (seatWaiting queue w) = Normal tt /\ queueOK (snd (seatWaiting queue w)).
Proof.
  induction queue as [|head rest IH]; intros w Hq H; [now split|].
  rewrite seatWaiting_cons.
  destruct (findAvailableTable (getSize head w) w) as [t|] eqn:F; [|now split].
  destruct H as (H1 & H2 & H3).
  destruct (findAvailableTable_room _ _ _ F) as [Hempty Hcap].
  pose proof (findAvailableTable_In _ _ _ F) as Ht.
  assert (W : waitingPatrons w =
              getMembers head w
              ++ concat (map (fun party => getMembers party w) rest))
    by (unfold waitingPatrons; now rewrite Hq).
  rewrite W in H2, H3.
  set (w0 := set_waitingQueue rest w).
  destruct (forOf_sitDown_runs t (getMembers head w) w0) as [w1 E].
  { now apply NoDup_app_remove_r in H2. }
  { intros p Hp. apply H3. apply in_or_app. now left. }
  { change (getPatrons t w0) with (getPatrons t w). rewrite Hempty. exact Hcap. }
  assert (S : seatParty head w0 = (Normal true, w1)).
  { rewrite seatParty_eq.
    change (findAvailableTable (getSize head w0) w0)
      with (findAvailableTable (getSize head w) w).
    rewrite F. change (getMembers head w0) with (getMembers head w).
    now rewrite E. }
  rewrite S.
  destruct (forOf_sitDown_normal t _ w0 tt w1 E)
    as (_ & _ & _ & _ & P & A & T & N & L & Q & _).
  apply IH; [exact Q|].
  assert (M : forall party, In party rest ->
                arrayStore w1 (members party) = arrayStore w (members party)).
  { intros party Hp. apply A.
    assert (Hin : In party (waitingQueue w)) by (rewrite Hq; now right).
    destruct (H1 party Hin) as [_ Hb].
    intros X. apply (Hb t Ht). symmetry. exact X. }
  assert (W1 : waitingPatrons w1
               = concat (map (fun party => getMembers party w) rest)).
  { unfold waitingPatrons. rewrite Q. cbn [w0 waitingQueue set_waitingQueue].
    f_equal. apply map_ext_in. intros party Hp. unfold getMembers.
    now apply M. }
  unfold queueOK. rewrite W1, Q, N, L, T.
  cbn [w0 waitingQueue set_waitingQueue nextArray tables tableStore].
  split; [|split].
  - intros party Hp. apply H1. rewrite Hq. now right.
  - now apply NoDup_app_remove_l in H2.
  - intros p Hp. rewrite P.
    + apply H3. apply in_or_app. now right.
    + intros Hin. exact (NoDup_app_disjoint _ _ p H2 Hin Hp).
Qed.

Lemma simulateStep_queueOK timeStep w :
  queueOK w ->
  fst (simulateStep timeStep w) = Normal tt /\
  queueOK (snd (simulateStep timeStep w)).
Proof.
  intros H. rewrite simulateStep_unfold.
  unfold admitWaitingParties, bind, gets.
  apply seatWaiting_queueOK; [reflexivity|].
  apply evictDuePatrons_queueOK. exact H.
Qed.

(** When nobody waits twice, nobody who waits is seated and the member
    arrays of the waiting parties are not arrays of tables, no step throws:
    [simulateStep] returns normally, [runSimulation] returns normally if
    it ends, and the queue left is of the same kind.  A party of distinct,
    unseated persons who do not wait already, on an array of its own, can
    join such a queue. *)
Theorem well_formed_queue_never_throws (w : World) :
  queueOK w ->
  (forall timeStep,
     fst (simulateStep timeStep w) = Normal tt /\
     queueOK (snd (simulateStep timeStep w))) /\
  (forall fuel duration timeStep,
     runSimulation fuel duration timeStep w = None \/
     exists w', runSimulation fuel duration timeStep w = Some (Normal tt, w') /\
                queueOK w') /\
  (forall party,
     (members party < nextArray w)%nat ->
     (forall t, In t (tables w) -> patrons (tableStore w t) <> members party) ->
     NoDup (getMembers party w) ->
     (forall p, In p (getMembers party w) ->
        sitting_at_table (personStore w p) = None /\ ~ In p (waitingPatrons w)) ->
     queueOK (snd (addToWaitingQueue party w))).
Proof.
  intros H. split; [|split].
  - intros timeStep. now apply simulateStep_queueOK.
  - intros fuel duration timeStep. revert w H.
    induction fuel as [|fuel IH]; intros w H; simpl.
    + destruct (_ <? _); [now left | right; eauto].
    + destruct (_ <? _); [|right; eauto].
      destruct (simulateStep_queueOK timeStep w H) as [Hn Hq].
      destruct (simulateStep timeStep w) as [[[]|e] w1]; simpl in *;
        [now apply IH | discriminate].
  - intros party Ha Hb ND Hs. destruct H as (H1 & H2 & H3).
    unfold addToWaitingQueue, modify. cbn [snd].
    assert (W : waitingPatrons (set_waitingQueue (waitingQueue w ++ [party]) w)
                = waitingPatrons w ++ getMembers party w).
    { unfold waitingPatrons. cbn [waitingQueue set_waitingQueue].
      rewrite map_app, concat_app. simpl. now rewrite app_nil_r. }
    unfold queueOK. rewrite W.
    cbn [waitingQueue set_waitingQueue nextArray tables tableStore personStore].
    split; [|split].
    + intros party' Hp. apply in_app_or in Hp.
      destruct Hp as [Hp|[<-|[]]]; [now apply H1 | now split].
    + apply NoDup_app; auto.
      intros p Hp Hm. now apply (proj2 (Hs p Hm)).
    + intros p Hp. apply in_app_or in Hp.
      destruct Hp as [Hp|Hp]; [now apply H3 | now apply Hs].
Qed.

Lemma openingNight_queueOK : queueOK openingNight.
Proof.
  split; [|split].
  - intros party Hp. simpl in Hp. destruct Hp as [<-|[]]. split; [simpl; lia|].
    intros t Ht. simpl in Ht. destruct Ht as [<-|[<-|[]]]; simpl; lia.
  - unfold waitingPatrons. simpl.
    repeat constructor; simpl; intuition discriminate.
  - intros p Hp. unfold waitingPatrons in Hp. simpl in Hp.
    destruct Hp as [<-|[<-|[]]]; reflexivity.
Qed.

Lemma well_formed_queue_never_throws_witness :
  fst (simulateStep 5 openingNight) = Normal tt /\
  waitingQueue (snd (simulateStep 5 openingNight)) = [].
Proof.
  split; [|reflexivity].
  exact (proj1 (proj1 (well_formed_queue_never_throws openingNight
                         openingNight_queueOK) 5)).
Defined.

(** ** Eviction and admission in one step *)

Lemma evictDuePatrons_arrays w :
  let w' := snd (evictDuePatrons w) in
  (nextArray w <= nextArray w')%nat /\
  forall a, (a < nextArray w)%nat -> arrayStore w' a = arrayStore w a.
Proof.
  cut (tables (snd (evictDuePatrons w)) = tables w /\
       (nextArray w <= nextArray (snd (evictDuePatrons w)))%nat /\
       forall a, (a < nextArray w)%nat ->
                 arrayStore (snd (evictDuePatrons w)) a = arrayStore w a);
    [now intros (_ & H)|].
  apply (evictDuePatrons_inv (tables w)
           (fun w0 => tables w0 = tables w /\
                      (nextArray w <= nextArray w0)%nat /\
                      forall a, (a < nextArray w)%nat ->
                                arrayStore w0 a = arrayStore w a)).
  - now intros w0 [X _].
  - intros t w0 (X & Y & Z) _.
    destruct (emptyTable_world t w0) as (L & N & _ & A & _). cbv zeta in *.
    split; [congruence|]. split; [lia|].
    intros a Ha. rewrite A.
    destruct (Nat.eqb_spec a (nextArray w0)); [lia | now apply Z].
  - repeat split; auto.
Qed.

Lemma evictDuePatrons_sameIdentities w :
  sameIdentities w (snd (evictDuePatrons w)).
Proof.
  apply (evictDuePatrons_inv (tables w) (sameIdentities w)).
  - now intros w0 [X _].
  - intros t w0 X _. now apply emptyTable_sameIdentities.
  - split; [reflexivity|]. split; [now split|]. intros q. apply samePerson_refl.
Qed.

(** A table that falls due at a step can be taken at the same step: when
    the occupants of a table of the restaurant are due at the new time and
    the party at the head of the queue fits its capacity, the step takes
    that party out of the queue (to seat it at the first table then
    available); what is left of the queue is an end of the queue behind
    it.  (The two bounds by [nextArray] say of the model's store that the
    arrays of the table and of the party have been allocated.) *)
Theorem same_step_reseating (timeStep : Z) (w : World) (t : TableRef)
    (p : PersonRef) (rest : list PersonRef)
    (head : Party) (queue : list Party) :
  (patrons (tableStore w t) < nextArray w)%nat ->
  (members head < nextArray w)%nat ->
  In t (tables w) ->
  getPatrons t w = p :: rest ->
  Math_max (actualDiningTime (personStore w p))
           (map (fun q => actualDiningTime (personStore w q)) rest)
    <= currentTime w + timeStep ->
  waitingQueue w = head :: queue ->
  getSize head w <= getCapacity t w ->
  exists seated,
    queue = seated ++ waitingQueue (snd (simulateStep timeStep w)).
Proof.
  intros Ha Hm Ht Ho Hdue Hq Hfit.
  rewrite simulateStep_unfold.
  set (wc := set_currentTime (currentTime w + timeStep) w).
  set (w2 := snd (evictDuePatrons wc)).
  assert (U : untouched wc t wc).
  { unfold untouched. repeat split; auto. now intros q [_ H]. }
  assert (E : emptied wc t w2).
  { unfold w2, evictDuePatrons, bind, gets. cbn [fst snd].
    apply (proj1 (forOf_checkTable_due wc t p rest Ho (tables wc) wc Hdue) U Ht). }
  destruct E as (_ & Hempty & _).
  destruct (evictDuePatrons_frame wc) as (L & Q & _).
  destruct (evictDuePatrons_arrays wc) as (_ & A).
  destruct (evictDuePatrons_sameIdentities wc) as (_ & T & _).
  cbv zeta in *. fold w2 in L, Q, A, T.
  assert (Hsize : getSize head w2 = getSize head w).
  { unfold getSize. now rewrite (A (members head) Hm). }
  assert (Hcap : getCapacity t w2 = getCapacity t w).
  { unfold getCapacity. now destruct (T t) as [_ ->]. }
  assert (F : findAvailableTable (getSize head w2) w2 <> None).
  { intros F. unfold findAvailableTable in F.
    assert (Hin : In t (tables w2)) by (rewrite L; exact Ht).
    pose proof (find_none _ _ F t Hin) as X.
    apply available_false in X. rewrite Hempty, Hsize, Hcap in X.
    destruct X as [X|X]; [now apply X | lia]. }
  assert (Q2 : waitingQueue w2 = head :: queue) by (rewrite Q; exact Hq).
  unfold admitWaitingParties, bind, gets. rewrite Q2, seatWaiting_cons.
  destruct (findAvailableTable (getSize head w2) w2); [|contradiction].
  pose proof (seatParty_waitingQueue head (set_waitingQueue queue w2)) as Q3.
  destruct (seatParty head (set_waitingQueue queue w2)) as [[b|e] w3];
    simpl in Q3.
  - destruct (seatWaiting_fifo queue w3 Q3) as (seated & _ & X & _).
    now exists seated.
  - exists []. simpl. symmetry. exact Q3.
Qed.

Lemma same_step_reseating_witness :
  findAvailableTable 2 fullHouse = None /\
  exists seated,
    [] = seated ++ waitingQueue (snd (simulateStep 10 fullHouse)).
Proof.
  split; [reflexivity|].
  apply (same_step_reseating 10 fullHouse 0%nat 0%nat [1%nat] (mkParty 1) []).
  - simpl. lia.
  - simpl. lia.
  - now left.
  - reflexivity.
  - vm_compute. discriminate.
  - reflexivity.
  - vm_compute. discriminate.
Defined.

Example fullHouse_turnover :
  let w' := snd (simulateStep 10 fullHouse) in
  waitingQueue w' = [] /\ getPatrons 0%nat w' = [2; 3]%nat /\
  sitting_at_table (personStore w' 0%nat) = None /\
  sitting_at_table (personStore w' 2%nat) = Some 0%nat.
Proof. repeat split. Qed.

(** A party without members at the head of the queue is taken out as soon
    as some table is empty, and nothing else happens for it: nobody is
    seated, no table is taken, and the phase goes on with the rest of the
    queue. *)
Theorem empty_party_is_dropped (w : World) (head : Party) (rest : list Party)
    (t : TableRef) :
  waitingQueue w = head :: rest ->
  getMembers head w = [] ->
  findAvailableTable 0 w = Some t ->
  admitWaitingParties w = admitWaitingParties (set_waitingQueue rest w).
Proof.
  intros Hq Hm F.
  assert (Hs : getSize head w = 0) by (unfold getSize, getMembers in *; now rewrite Hm).
  unfold admitWaitingParties at 1. unfold bind, gets.
  rewrite Hq, seatWaiting_cons, Hs, F, seatParty_eq.
  change (getSize head (set_waitingQueue rest w)) with (getSize head w).
  change (findAvailableTable (getSize head w) (set_waitingQueue rest w))
    with (findAvailableTable (getSize head w) w).
  rewrite Hs, F.
  change (getMembers head (set_waitingQueue rest w)) with (getMembers head w).
  rewrite Hm. reflexivity.
Qed.

Lemma empty_party_is_dropped_witness :
  admitWaitingParties emptyPartyWaiting
  = (Normal tt, set_waitingQueue [] emptyPartyWaiting).
Proof.
  rewrite (empty_party_is_dropped emptyPartyWaiting (mkParty 1) [] 0%nat);
    reflexivity.
Defined.

(** ** The counters *)

Lemma fold_left_add_nat {A} (f : A -> nat) l a :
  fold_left (fun sum x => (sum + f x)%nat) l a
  = (a + fold_left (fun sum x => (sum + f x)%nat) l 0)%nat.
Proof.
  revert a. induction l as [|x l IH]; intros a; simpl; [lia|].
  rewrite (IH (a + f x)%nat), (IH (f x)). lia.
Qed.

Lemma fold_left_add_Z {A} (f : A -> Z) l a :
  fold_left (fun sum x => sum + f x) l a
  = a + fold_left (fun sum x => sum + f x) l 0.
Proof.
  revert a. induction l as [|x l IH]; intros a; simpl; [lia|].
  rewrite (IH (a + f x)), (IH (f x)). lia.
Qed.

(** [getWaitingPatronCount] is the number of persons listed by the waiting
    parties, a person listed twice counted twice, and
    [addToWaitingQueue] adds the size of the party to it. *)
Theorem waiting_patron_count (w : World) :
  getWaitingPatronCount w = Z.of_nat (length (waitingPatrons w)) /\
  forall party,
    getWaitingPatronCount (snd (addToWaitingQueue party w))
    = getWaitingPatronCount w + getSize party w.
Proof.
  split.
  - unfold getWaitingPatronCount, waitingPatrons.
    induction (waitingQueue w) as [|party q IH]; [reflexivity|].
    simpl. rewrite fold_left_add_Z, IH, length_app.
    unfold getSize, getMembers. lia.
  - intros party. unfold getWaitingPatronCount, addToWaitingQueue, modify.
    cbn [snd waitingQueue set_waitingQueue].
    rewrite fold_left_app. reflexivity.
Qed.

Lemma occupied_le_total w l :
  (length (filter (fun table => (0 <? length (getPatrons table w))%nat) l)
   <= fold_left (fun sum table => (sum + length (getPatrons table w))%nat) l 0)%nat.
Proof.
  induction l as [|t l IH]; simpl; [lia|].
  rewrite fold_left_add_nat.
  destruct (Nat.ltb_spec 0 (length (getPatrons t w))); simpl; lia.
Qed.

Lemma total_zero w l :
  fold_left (fun sum table => (sum + length (getPatrons table w))%nat) l 0%nat
  = 0%nat <->
  forall t, In t l -> getPatrons t w = [].
Proof.
  induction l as [|t l IH]; simpl.
  - split; [intros _ t [] | reflexivity].
  - rewrite fold_left_add_nat. split.
    + intros H t' [<-|Ht'].
      * apply length_zero_iff_nil. lia.
      * apply IH; [lia | assumption].
    + intros H. rewrite (H t (or_introl eq_refl)). simpl.
      apply IH. intros t' Ht'. apply H. now right.
Qed.

(** The two counters of seated patrons.  There are at most as many
    occupied tables as tables and as seated patrons; the total is 0 exactly
    when every table is empty, and then no table counts as occupied; and
    when every table is within its capacity, the total seated is at most
    the total capacity. *)
Theorem seated_counters (w : World) :
  (getOccupiedTableCount w <= length (tables w))%nat /\
  (getOccupiedTableCount w <= getTotalSeatedPatrons w)%nat /\
  (getTotalSeatedPatrons w = 0%nat <->
   forall t, In t (tables w) -> getPatrons t w = []) /\
  (getTotalSeatedPatrons w = 0%nat -> getOccupiedTableCount w = 0%nat) /\
  (withinCapacity w ->
   Z.of_nat (getTotalSeatedPatrons w) <= totalCapacity w).
Proof.
  unfold getOccupiedTableCount, getTotalSeatedPatrons, totalCapacity,
    withinCapacity.
  split; [apply filter_length_le|].
  split; [apply occupied_le_total|].
  split; [apply total_zero|].
  split.
  - intros H. pose proof (occupied_le_total w (tables w)). lia.
  - induction (tables w) as [|t l IH]; intros H; simpl; [lia|].
    rewrite fold_left_add_nat, fold_left_add_Z.
    specialize (H t (or_introl eq_refl)) as Ht.
    assert (X : forall t', In t' l ->
                Z.of_nat (length (getPatrons t' w)) <= getCapacity t' w)
      by (intros t' Ht'; apply H; now right).
    specialize (IH X). lia.
Qed.

Lemma sum_unchanged (f f' : TableRef -> nat) l :
  (forall t, In t l -> f' t = f t) ->
  fold_left (fun sum t => (sum + f' t)%nat) l 0%nat
  = fold_left (fun sum t => (sum + f t)%nat) l 0%nat.
Proof.
  induction l as [|x l IH]; intros H; simpl; [reflexivity|].
  rewrite (fold_left_add_nat f'), (fold_left_add_nat f).
  rewrite IH by (intros t Ht; apply H; now right).
  now rewrite (H x (or_introl eq_refl)).
Qed.

Lemma sum_one_changed (f f' : TableRef -> nat) l t k :
  NoDup l -> In t l ->
  (forall t', In t' l -> t' <> t -> f' t' = f t') ->
  f' t = (f t + k)%nat ->
  fold_left (fun sum t => (sum + f' t)%nat) l 0%nat
  = (fold_left (fun sum t => (sum + f t)%nat) l 0 + k)%nat.
Proof.
  induction l as [|x l IH]; intros ND Hin Hother Ht; [destruct Hin|].
  simpl. rewrite (fold_left_add_nat f'), (fold_left_add_nat f).
  inversion ND; subst.
  destruct (Nat.eq_dec x t) as [->|N].
  - rewrite (sum_unchanged f f' l).
    + lia.
    + intros t' Ht'. apply Hother; [now right|]. intros ->. contradiction.
  - destruct Hin as [->|Hin]; [contradiction|].
    rewrite IH; auto.
    + rewrite (Hother x); [lia | now left | assumption].
    + intros t' Ht'. apply Hother. now right.
Qed.

(** With every table listed once and on an array of its own, the total of
    seated patrons follows the seating: a [seatParty] that returns true
    adds the number of members of the party, and [emptyTable] takes away
    the number of occupants of the table. *)
Theorem seated_total_follows (w : World) :
  ownArrays w -> NoDup (tables w) ->
  (forall party w',
     seatParty party w = (Normal true, w') ->
     getTotalSeatedPatrons w'
     = (getTotalSeatedPatrons w + length (getMembers party w))%nat) /\
  (forall t, In t (tables w) ->
     (getTotalSeatedPatrons (snd (emptyTable t w)) + length (getPatrons t w))%nat
     = getTotalSeatedPatrons w).
Proof.
  intros [HO1 HO2] ND. split.
  - intros party w'. rewrite seatParty_eq.
    destruct (findAvailableTable (getSize party w) w) as [t|] eqn:F;
      [|discriminate].
    pose proof (findAvailableTable_In _ _ _ F) as Ht.
    destruct (forOf _ (getMembers party w) w) as [[u|e] w1] eqn:E;
      [|discriminate].
    intros X. inversion X; subst w1. clear X.
    destruct (forOf_sitDown_normal t _ w u w' E)
      as (_ & _ & G & _ & _ & A & T & _ & L & _).
    unfold getTotalSeatedPatrons. rewrite L.
    apply (sum_one_changed _ _ (tables w) t); auto.
    + intros t' Ht' N. unfold getPatrons. rewrite T. f_equal. apply A.
      intros X. apply N. now apply HO2.
    + now rewrite G, length_app.
  - intros t Ht.
    destruct (emptyTable_world t w) as (L & _). cbv zeta in L.
    unfold getTotalSeatedPatrons. rewrite L. symmetry.
    apply (sum_one_changed _ _ (tables w) t); auto.
    + intros t' Ht' N. rewrite emptyTable_getPatrons by now apply HO1.
      apply Nat.eqb_neq in N. now rewrite N.
    + rewrite emptyTable_getPatrons by now apply HO1.
      now rewrite Nat.eqb_refl.
Qed.

Lemma seated_total_follows_witness :
  getTotalSeatedPatrons (snd (seatParty (mkParty 2) openingNight))
  = (getTotalSeatedPatrons openingNight + 2)%nat.
Proof.
  assert (ND : NoDup (tables openingNight)).
  { simpl. repeat constructor; simpl; intuition discriminate. }
  exact (proj1 (seated_total_follows openingNight openingNight_ownArrays ND)
               (mkParty 2) (snd (seatParty (mkParty 2) openingNight)) eq_refl).
Defined.

(** ** The served counter of main *)

Lemma sum_le (f f' : TableRef -> nat) l :
  (forall t, In t l -> (f t <= f' t)%nat) ->
  (fold_left (fun sum t => (sum + f t)%nat) l 0
   <= fold_left (fun sum t => (sum + f' t)%nat) l 0)%nat.
Proof.
  induction l as [|x l IH]; intros H; simpl; [lia|].
  rewrite (fold_left_add_nat f'), (fold_left_add_nat f).
  specialize (H x (or_introl eq_refl)) as Hx.
  assert (X : forall t, In t l -> (f t <= f' t)%nat)
    by (intros t Ht; apply H; now right).
  specialize (IH X). lia.
Qed.

(** Admission only adds patrons: no table has fewer after it. *)
Lemma admitWaitingParties_grows w t :
  (length (getPatrons t w)
   <= length (getPatrons t (snd (admitWaitingParties w))))%nat.
Proof.
  cut (tables (snd (admitWaitingParties w)) = tables w /\
       forall t, (length (getPatrons t w)
                  <= length (getPatrons t (snd (admitWaitingParties w))))%nat);
    [now intros [_ H]|].
  apply (admitWaitingParties_inv (tables w)
           (fun w0 => tables w0 = tables w /\
                      forall t, (length (getPatrons t w)
                                 <= length (getPatrons t w0))%nat)).
  - now intros w0 [X _].
  - intros p t0 w0 [X Y] _.
    destruct (sitDown p t0 w0) as [[u|e] w1] eqn:E; simpl.
    + destruct (sitDown_normal p t0 w0 u w1 E)
        as (_ & _ & _ & G & _ & A & T & _ & L & _).
      split; [congruence|]. intros t1.
      specialize (Y t1).
      destruct (Nat.eq_dec (patrons (tableStore w0 t1))
                           (patrons (tableStore w0 t0))) as [Eq|N].
      * assert (X1 : getPatrons t1 w1 = getPatrons t1 w0 ++ [p]).
        { unfold getPatrons in *. rewrite T in *. rewrite Eq. exact G. }
        rewrite X1, length_app. simpl. lia.
      * assert (X1 : getPatrons t1 w1 = getPatrons t1 w0).
        { unfold getPatrons. rewrite T. now apply A. }
        now rewrite X1.
    + destruct (sitDown_throw p t0 w0 e w1 E) as [-> _]. now split.
  - intros q w0 H. exact H.
  - now split.
Qed.

(** The counter [totalPatronsServed] of [main] never goes down, and at an
    iteration that returns it grows by at most the drop of the seated
    total over the eviction phase of the step: patrons admitted at the
    same step hide as many departures.  Enqueueing the new party does not
    change the seated total, and [partyCount] grows by one exactly when a
    party arrived. *)
Theorem main_served_counter (newParty : option Party) (timeStep : Z)
    (partyCount totalPatronsServed : nat) (w : World)
    (partyCount' totalPatronsServed' : nat) (w' : World) :
  main_iteration newParty timeStep partyCount totalPatronsServed w
  = (Normal (partyCount', totalPatronsServed'), w') ->
  let w1 := match newParty with
            | Some party => snd (addToWaitingQueue party w)
            | None => w
            end in
  let w2 := snd (evictDuePatrons
                   (set_currentTime (currentTime w1 + timeStep) w1)) in
  partyCount' = match newParty with
                | Some _ => S partyCount
                | None => partyCount
                end /\
  getTotalSeatedPatrons w1 = getTotalSeatedPatrons w /\
  (totalPatronsServed <= totalPatronsServed')%nat /\
  (totalPatronsServed' - totalPatronsServed
   <= getTotalSeatedPatrons w - getTotalSeatedPatrons w2)%nat.
Proof.
  intros E. cbv zeta.
  set (w1 := match newParty with
             | Some party => snd (addToWaitingQueue party w)
             | None => w
             end).
  set (pc := match newParty with Some _ => S partyCount | None => partyCount end).
  assert (E1 : main_iteration newParty timeStep partyCount totalPatronsServed w
               = match simulateStep timeStep w1 with
                 | (Normal _, w3) =>
                     (Normal (pc,
                        if (getTotalSeatedPatrons w3 <? getTotalSeatedPatrons w1)%nat
                        then (totalPatronsServed
                              + (getTotalSeatedPatrons w1
                                 - getTotalSeatedPatrons w3))%nat
                        else totalPatronsServed), w3)
                 | (Throw e, w3) => (Throw e, w3)
                 end).
  { unfold main_iteration, w1, pc. destruct newParty; reflexivity. }
  rewrite E1 in E. clear E1.
  assert (S1 : getTotalSeatedPatrons w1 = getTotalSeatedPatrons w)
    by (unfold w1; destruct newParty; reflexivity).
  rewrite simulateStep_unfold in E.
  set (w2 := snd (evictDuePatrons
                    (set_currentTime (currentTime w1 + timeStep) w1))) in *.
  assert (G : (getTotalSeatedPatrons w2
               <= getTotalSeatedPatrons (snd (admitWaitingParties w2)))%nat).
  { destruct (admitWaitingParties_frame w2) as [L _]. cbv zeta in L.
    unfold getTotalSeatedPatrons. rewrite L.
    apply sum_le. intros t _. apply admitWaitingParties_grows. }
  destruct (admitWaitingParties w2) as [[u|e] w3]; [|discriminate].
  simpl in G. inversion E; subst. clear E.
  split; [reflexivity|]. split; [exact S1|].
  rewrite <- S1.
  destruct (Nat.ltb_spec (getTotalSeatedPatrons w')
                         (getTotalSeatedPatrons w1)); lia.
Qed.

Lemma main_served_counter_witness :
  exists w',
    main_iteration None 10 0 0 fullHouse = (Normal (0%nat, 0%nat), w') /\
    (0 - 0 <= getTotalSeatedPatrons fullHouse
              - getTotalSeatedPatrons
                  (snd (evictDuePatrons (set_currentTime 50 fullHouse))))%nat.
Proof.
  eexists. split; [reflexivity|].
  exact (proj2 (proj2 (proj2
           (main_served_counter None 10 0 0 fullHouse 0 0 _ eq_refl)))).
Defined.

(** In [fullHouse] two patrons leave at the step and the two who wait take
    their seats: the counter stays at 0. *)
Example main_misses_turnover :
  fst (main_iteration None 10 0 0 fullHouse) = Normal (0%nat, 0%nat) /\
  getTotalSeatedPatrons fullHouse = 2%nat /\
  getTotalSeatedPatrons
    (snd (evictDuePatrons (set_currentTime 50 fullHouse))) = 0%nat.
Proof. repeat split. Qed.

(** * The phases of a step *)

(** ** Admission only seats *)











(** ** C2: first come, first served *)



(** A step on the queue [B (two people); A (four people)]: B is seated at
    the table of two, A stays. *)
Example smallPartyFirst_step :
  let w := set_waitingQueue [mkParty 3; mkParty 2] blockedQueue in
  let w' := snd (simulateStep 5 w) in
  waitingQueue w' = [mkParty 2] /\ getPatrons 0%nat w' = [4; 5]%nat /\
  sitting_at_table (personStore w' 4%nat) = Some 0%nat /\
  sitting_at_table (personStore w' 5%nat) = Some 0%nat.
Proof. repeat split. Qed.

(** ** C3: a table leaves together *)








(** ** C7: the clock of a step *)

(** Outside the range from -2^53 to 2^53 the sum of two doubles need not be
    exact: in binary64 the sum of 2^53 and 1 is 2^53, so a step of 1 at
    clock 2^53 leaves the clock where it is, and the test of a run to
    2^53 + 2 stays true. *)
Section Doubles.
Import PrimFloat.

Example double_sum_absorbs :
  (9007199254740992 + 1 = 9007199254740992)%float /\
  (9007199254740992 <? 9007199254740994)%float = true.
Proof. split; reflexivity. Qed.

End Doubles.


